(** * pkg_mysql: the schema-change log of [mysql.go]

    A shallow embedding of the methods [Schema] and [Update] of [DB] from
    [mysql.go], with the database and the line reader they talk to
    modelled as explicit state.

    - Go [string] and [[]byte] are both [string] (a sequence of bytes);
      the conversion [string(b)] is the identity.
    - Go [error] is [option error]; [None] is [nil].
    - Go [int] is [Z] with the 64-bit wrap-around written out in
      [int_incr].
    - The table [dbSchemaLog (id, tx)] with [PRIMARY KEY (id)] is a
      [gmap Z string].
    - Every call made on [database/sql] is appended to a call history, so
      that "what the code asked the database to do" can be stated. *)

From Stdlib Require Import ZArith Ascii String List Lia Bool.
From stdpp Require Import base gmap strings list fin_maps.

Local Open Scope string_scope.
Local Open Scope list_scope.
Local Open Scope Z_scope.

(** ** Go values *)

(** The sentinel errors the code compares against with [==], and any other
    error value. *)
Inductive error : Type :=
| io_EOF
| sql_ErrNoRows
| errors_New (msg : string).

(** [int] on a 64-bit platform. *)
Definition maxInt : Z := 9223372036854775807.
Definition minInt : Z := -9223372036854775808.

(** [n++] on an [int]. *)
Definition int_incr (n : Z) : Z :=
  if n =? maxInt then minInt else n + 1.

(** [len(b)] of a byte slice. *)
Definition len (b : string) : nat := String.length b.

(** ** The line reader: [bufio.Reader.ReadLine]

    [Schema] reads its source through [bufio.NewReader(schema).ReadLine()].
    The loop of [Schema] is stated over the results of these calls; module
    [bufio] below models how the standard library produces them from the
    bytes of the source.

    What one call of [ReadLine] hands back: [(line, isPrefix, err)]. *)
Record ReadResult : Type := mkRead {
  line : string;
  isPrefix : bool;
  rerr : option error
}.

Module bufio.

(** [bufio.NewReader] allocates a buffer of this many bytes. *)
Definition defaultBufSize : nat := 4096.

Definition LF : ascii := ascii_of_nat 10.
Definition CR : ascii := ascii_of_nat 13.

(** The outcome of [ReadSlice('\n')] looking at no more than a buffer's
    worth of the remaining stream. *)
Inductive Slice : Type :=
| Delim (before rest : string)   (* a newline was found; [before] excludes it *)
| BufferFull (chunk rest : string) (* the buffer filled up with no newline *)
| Drained (chunk : string).        (* the stream ended first *)

Fixpoint ReadSlice (room : nat) (s : string) : Slice :=
  match room with
  | O => BufferFull "" s
  | S room' =>
      match s with
      | EmptyString => Drained ""
      | String c s' =>
          if Ascii.eqb c LF then Delim "" s'
          else match ReadSlice room' s' with
               | Delim l r => Delim (String c l) r
               | BufferFull l r => BufferFull (String c l) r
               | Drained l => Drained (String c l)
               end
      end
  end.

(** Split off a final carriage return, if the text ends with one. *)
Fixpoint chop_CR (s : string) : option string :=
  match s with
  | EmptyString => None
  | String c EmptyString => if Ascii.eqb c CR then Some "" else None
  | String c s' => option_map (String c) (chop_CR s')
  end.

(** An [io.Reader] that delivers [content] with a [nil] error and then
    keeps answering [(0, ending)]; a file or a [strings.Reader] does so,
    with [io.EOF]. *)
Record Reader : Type := mkReader {
  content : string;
  ending : error
}.

(** One call of [ReadLine] on a reader whose buffer holds [size] bytes.
    - a newline inside the buffer: the line without its [\n] or [\r\n];
    - a full buffer without newline: the buffer as a prefix
      ([isPrefix = true]); a carriage return at its very end is put back
      for the next call;
    - the stream ended: what is left, as a complete line; when nothing
      is left, the reader's own error and no line. *)
Definition ReadLine (size : nat) (rd : Reader) : ReadResult * Reader :=
  match ReadSlice size (content rd) with
  | Delim l rest =>
      (mkRead (default l (chop_CR l)) false None, mkReader rest (ending rd))
  | BufferFull l rest =>
      match chop_CR l with
      | Some l' => (mkRead l' true None, mkReader (String CR rest) (ending rd))
      | None => (mkRead l true None, mkReader rest (ending rd))
      end
  | Drained l =>
      if (len l =? 0)%nat
      then (mkRead "" false (Some (ending rd)), mkReader "" (ending rd))
      else (mkRead l false None, mkReader "" (ending rd))
  end.

(** The results of calling [ReadLine] until it reports an error. Every
    call before that consumes at least one byte, so [fuel] no smaller
    than the number of bytes left reaches the error. *)
Fixpoint ReadLines (fuel : nat) (size : nat) (rd : Reader) : list ReadResult :=
  let '(r, rd') := ReadLine size rd in
  match rerr r with
  | Some _ => [r]
  | None =>
      match fuel with
      | O => [r]
      | S fuel' => r :: ReadLines fuel' size rd'
      end
  end.

Definition ReadAll (size : nat) (rd : Reader) : list ReadResult :=
  ReadLines (len (content rd)) size rd.

End bufio.

(** ** The database behind [*sql.DB] *)

(** The calls [Schema] makes on [database/sql], with their parameters. *)
Inductive Call : Type :=
| CreateTable                      (* CREATE TABLE IF NOT EXISTS dbSchemaLog ... *)
| Select (id : Z)                  (* SELECT tx FROM dbSchemaLog WHERE id=? *)
| BeginTx
| Insert (id : Z) (tx : string)    (* INSERT INTO dbSchemaLog (id, tx) VALUES (?, ?) *)
| Exec (stmt : string)             (* the schema change itself *)
| Delete (id : Z)                  (* DELETE FROM dbSchemaLog WHERE id=? *)
| Commit
| Rollback.

(** The committed rows of [dbSchemaLog], and every call made so far, oldest
    first. *)
Record Database : Type := mkDatabase {
  dbSchemaLog : gmap Z string;
  calls : list Call
}.

Definition called (c : Call) (w : Database) : Database :=
  mkDatabase (dbSchemaLog w) (calls w ++ [c]).

Definition committed (rows : gmap Z string) (w : Database) : Database :=
  mkDatabase rows (calls w).

(** What the database server and the network do is not the package's
    choice. [Env] fixes it for one run: which call fails (and with what
    message), keyed by the value of [d.schemaChanges] at the call, which
    statements carry an implicit commit (the list in the comment after
    [Schema]), and what a statement of the source, sent to the server as it
    stands (line 193), does to the rows of [dbSchemaLog] itself when it
    succeeds ([writes]; the identity for a statement that leaves that
    table alone). A fault is never one of the sentinel errors. *)
Record Env : Type := mkEnv {
  begin0_fault : option string;   (* BeginTx before CREATE TABLE *)
  create_fault : option string;   (* CREATE TABLE IF NOT EXISTS *)
  commit0_fault : option string;  (* its Commit *)
  select_fault : Z -> option string;
  begin_fault : Z -> option string;
  insert_fault : Z -> option string;
  exec_fault : Z -> option string;
  delete_fault : Z -> option string;
  commit_fault : Z -> option string;
  implicit_commit : string -> bool;
  writes : string -> gmap Z string -> gmap Z string
}.

(** [d.db.QueryRowContext(ctx, "SELECT tx ...", id).Scan(&dest)]: a found
    row is stored in [dest]; otherwise [Scan] returns before it assigns,
    [dest] keeps the value it had and the error is [sql.ErrNoRows], or the
    fault (a fault strikes before a row is delivered). *)
Definition QueryRowScan (env : Env) (w : Database) (id : Z) (dest : string)
  : string * option error * Database :=
  let w' := called (Select id) w in
  match select_fault env id with
  | Some msg => (dest, Some (errors_New msg), w')
  | None =>
      match dbSchemaLog w !! id with
      | Some tx => (tx, None, w')
      | None => (dest, Some sql_ErrNoRows, w')
      end
  end.

(** ** The package *)

(** The struct [DB]: a pointer to [sql.DB], [schemaChanges int] and
    [schemaFail bool]. *)
Record DB : Type := mkDB {
  db : Database;
  schemaChanges : Z;
  schemaFail : bool
}.

(** [Connect]: [this = new(DB)], then the connection is opened. *)
Definition Connect (w : Database) : DB := mkDB w 0 false.

(** The errors [Schema] builds with [fmt.Errorf], by their format string,
    holding the values the format prints. *)
Inductive SchemaError : Type :=
| unable_to_start_a_new_transaction (e : error)
| unable_to_create_dbSchemaLog (e : error)
| unable_to_commit_dbSchemaLog (e : error)
| error_reading_scheme_lines (e : error)
| dbSchemaLog_does_not_match (row : Z) (has applied : string)
| unable_to_insert_dbSchemaLog_row (row : Z) (e : error)
| unable_to_make_schema_change (row : Z) (stmt : string) (e : error)
| unable_to_commit_schema_change (row : Z) (stmt : string) (e : error).

(** Lines 179-206: the transaction that records and applies statement [b]
    as row [id]. [view] is what the open transaction sees of
    [dbSchemaLog]; a statement with an implicit commit makes the view
    durable when it is sent, whether or not it then succeeds. A statement
    that succeeds leaves the rows as [writes env b] makes them, durably at
    once if it carries an implicit commit; one that fails changes
    nothing. *)
Definition apply (env : Env) (w : Database) (id : Z) (b : string)
  : option SchemaError * Database :=
  let w := called BeginTx w in
  match begin_fault env id with
  | Some msg => (Some (unable_to_start_a_new_transaction (errors_New msg)), w)
  | None =>
      let view := dbSchemaLog w in
      let w := called (Insert id b) w in
      match (if decide (is_Some (view !! id)) then Some "Duplicate entry" else insert_fault env id) with
      | Some msg =>
          (Some (unable_to_insert_dbSchemaLog_row id (errors_New msg)), called Rollback w)
      | None =>
          let view := <[id := b]> view in
          let w := called (Exec b) w in
          let w := if implicit_commit env b then committed view w else w in
          match exec_fault env id with
          | Some msg =>
              let w := called (Delete id) w in
              let view := match delete_fault env id with
                          | Some _ => view
                          | None => delete id view
                          end in
              let w := called Commit w in
              let w := match commit_fault env id with
                       | Some _ => w
                       | None => committed view w
                       end in
              (Some (unable_to_make_schema_change id b (errors_New msg)), w)
          | None =>
              let view := writes env b view in
              let w := if implicit_commit env b then committed view w else w in
              let w := called Commit w in
              match commit_fault env id with
              | Some msg =>
                  (Some (unable_to_commit_schema_change id b (errors_New msg)),
                   called Rollback w)
              | None => (None, committed view w)
              end
          end
      end
  end.

(** The variables [Schema] declares before its loop and keeps across
    iterations. *)
Record Locals : Type := mkLocals {
  currentTx : string;
  data : string
}.

Inductive Step : Type :=
| Continue (d : DB) (l : Locals)
| Return (e : option SchemaError) (d : DB).

(** Lines 168-206: statement [b], numbered [id], against the log. [cur] is
    [currentTx] as the previous iterations left it. The result is the
    error to return ([None]: go on with the next line), [currentTx] and the
    database afterwards. *)
Definition resolve (env : Env) (w : Database) (cur : string) (id : Z) (b : string)
  : option SchemaError * string * Database :=
  let '(cur, e, w) := QueryRowScan env w id cur in
  if String.eqb cur b then (None, cur, w)
  else
    match e with
    | Some sql_ErrNoRows =>
        let '(r, w) := apply env w id b in (r, cur, w)
    | _ => (Some (dbSchemaLog_does_not_match id cur b), cur, w)
    end.

(** Lines 146-206: one pass through the body of the [for] loop, given what
    [ReadLine] returned. *)
Definition iteration (env : Env) (d : DB) (l : Locals) (r : ReadResult) : Step :=
  let b := line r in
  if isPrefix r then
    Continue d (mkLocals (currentTx l) (data l +:+ b))
  else
    let b := if (0 <? len (data l))%nat then data l +:+ b else b in
    let data' := if (0 <? len (data l))%nat then "" else data l in
    match rerr r with
    | Some io_EOF => Return None d
    | Some e => Return (Some (error_reading_scheme_lines e)) d
    | None =>
        if (len b =? 0)%nat then Continue d (mkLocals (currentTx l) data')
        else
          let id := int_incr (schemaChanges d) in
          match resolve env (db d) (currentTx l) id b with
          | (None, cur, w) => Continue (mkDB w id (schemaFail d)) (mkLocals cur data')
          | (Some err, _, w) => Return (Some err) (mkDB w id (schemaFail d))
          end
    end.

(** Lines 144-208: the loop, over the results of the successive [ReadLine]
    calls. It gives back the error, the handle as the run left it, and the
    results it never asked for. A reader asked again after its last listed
    result answers [io.EOF], on which the loop returns [nil]. *)
Fixpoint Schema_loop (env : Env) (d : DB) (l : Locals) (rs : list ReadResult)
  : option SchemaError * DB * list ReadResult :=
  match rs with
  | [] => (None, d, [])
  | r :: rs' =>
      match iteration env d l r with
      | Continue d' l' => Schema_loop env d' l' rs'
      | Return e d' => (e, d', rs')
      end
  end.

(** Lines 129-141: the log table is created in a transaction of its own. *)
Definition create_log (env : Env) (w : Database) : option SchemaError * Database :=
  let w := called BeginTx w in
  match begin0_fault env with
  | Some msg => (Some (unable_to_start_a_new_transaction (errors_New msg)), w)
  | None =>
      let w := called CreateTable w in
      match create_fault env with
      | Some msg => (Some (unable_to_create_dbSchemaLog (errors_New msg)), w)
      | None =>
          let w := called Commit w in
          match commit0_fault env with
          | Some msg => (Some (unable_to_commit_dbSchemaLog (errors_New msg)), w)
          | None => (None, w)
          end
      end
  end.

(** The method [Schema] once [bufio.NewReader(schema)] is
    replaced by the results its [ReadLine] gives. *)
Definition Schema_on (env : Env) (d : DB) (rs : list ReadResult)
  : option SchemaError * DB * list ReadResult :=
  match create_log env (db d) with
  | (Some err, w) => (Some err, mkDB w (schemaChanges d) (schemaFail d), rs)
  | (None, w) =>
      Schema_loop env (mkDB w (schemaChanges d) (schemaFail d)) (mkLocals "" "") rs
  end.

(** The method [Schema(ctx context.Context, schema io.Reader) error] of
    a handle [d], with the handle as the call leaves it. *)
Definition Schema (env : Env) (d : DB) (schema : bufio.Reader) : option SchemaError * DB :=
  fst (Schema_on env d (bufio.ReadAll bufio.defaultBufSize schema)).

(** An environment in which no call fails and no statement of the source
    writes [dbSchemaLog]. *)
Definition healthy (ic : string -> bool) : Env :=
  mkEnv None None None
        (fun _ => None) (fun _ => None) (fun _ => None)
        (fun _ => None) (fun _ => None) (fun _ => None) ic (fun _ rows => rows).

(** No call made for a statement of the source fails: the lookup, the
    start of the transaction, the insert of the row, the statement and
    the commit. *)
Definition faultless (env : Env) : Prop :=
  ∀ id, select_fault env id = None ∧ begin_fault env id = None
        ∧ insert_fault env id = None ∧ exec_fault env id = None
        ∧ commit_fault env id = None.

(** The statements of the comment after [Schema] are recognised by their
    first word here; it is enough for the examples below. *)
Definition ddl (s : string) : bool :=
  String.prefix "CREATE" s || String.prefix "ALTER" s || String.prefix "DROP" s.

(** Source text made of the given lines, each ended by a newline. *)
Fixpoint unlines (ls : list string) : string :=
  match ls with
  | [] => ""
  | l :: ls' => l +:+ String bufio.LF (unlines ls')
  end.

(** A file holding [s]. *)
Definition file (s : string) : bufio.Reader := bufio.mkReader s io_EOF.

(** [n] copies of the byte [c]. *)
Fixpoint bytes (n : nat) (c : ascii) : string :=
  match n with
  | O => ""
  | S n' => String c (bytes n' c)
  end.

(** ** The reader and the reconciler as the specification words them

    Section 4.1: the reader accumulates partial fragments and yields a
    statement once the line is complete; blank records are skipped; the
    sequence ends cleanly at end of stream and fails on any other read
    error. A fragment still pending when the stream ends or fails is not
    yielded. The result is the statements in order and the read error, if
    any. *)
Fixpoint statements (pending : string) (rs : list ReadResult)
  : list string * option error :=
  match rs with
  | [] => ([], None)
  | r :: rs' =>
      if isPrefix r then statements (pending +:+ line r) rs'
      else
        match rerr r with
        | Some io_EOF => ([], None)
        | Some e => ([], Some e)
        | None =>
            let b := pending +:+ line r in
            let '(rest, failure) := statements "" rs' in
            if (len b =? 0)%nat then (rest, failure) else (b :: rest, failure)
        end
  end.

(** Section 4.2: the statement at position [pos] of the source (counted
    from 1, blank lines left out) has the sequence number [base + pos]; the
    statements are resolved in source order, each as [resolve] does it,
    until one fails. [given] is the number of statements numbered so far.
    The result is the error, the database and the last number given out. *)
Fixpoint reconcile (env : Env) (w : Database) (cur : string) (base : Z)
    (given : nat) (stmts : list string) (failure : option error)
  : option SchemaError * Database * Z :=
  match stmts with
  | [] => (option_map error_reading_scheme_lines failure, w, base + Z.of_nat given)
  | b :: rest =>
      let id := base + Z.of_nat (S given) in
      match resolve env w cur id b with
      | (None, cur', w') => reconcile env w' cur' base (S given) rest failure
      | (Some err, _, w') => (Some err, w', id)
      end
  end.

(** ** [Update] *)

(** The [interface{}] values a caller puts in the map. *)
Inductive value : Type :=
| nil_value
| string_value (s : string)
| int_value (n : Z)
| bool_value (b : bool).

(** [id == ""] for [id] of type [interface{}]. *)
Definition is_empty_string (v : value) : bool :=
  match v with
  | string_value s => String.eqb s ""
  | _ => false
  end.

(** [strings.TrimSuffix]. *)
Fixpoint TrimSuffix (s suffix : string) : string :=
  if String.eqb s suffix then ""
  else match s with
       | EmptyString => ""
       | String c s' => String c (TrimSuffix s' suffix)
       end.

(** How a call of [Update] ends, up to the point where it hands the query
    to the database. *)
Inductive Updated : Type :=
| panic_index_out_of_range (index length : nat)
| missing_the_ID (i : nat)
| db_Exec (query : string) (vals : list value).

(** Lines 456-464: [for k, v := range updates], over the entries in the
    order the runtime picked. A write [vals[i] = v] outside the slice
    panics. *)
Fixpoint Update_range (kvs : list (string * value)) (id : value) (sql : string)
    (vals : list value) (i : nat)
  : Updated + (value * string * list value * nat) :=
  match kvs with
  | [] => inr (id, sql, vals, i)
  | (k, v) :: kvs' =>
      if String.eqb k "id" then Update_range kvs' v sql vals i
      else if decide (i < length vals)%nat
           then Update_range kvs' id (sql +:+ k +:+ "=?,") (<[i := v]> vals) (S i)
           else inl (panic_index_out_of_range i (length vals))
  end.

(** Lines 445-475 for one iteration order of the map. *)
Definition Update_in (order : list (string * value)) (table : string) : Updated :=
  let vals := replicate (length order) nil_value in
  match Update_range order nil_value ("UPDATE " +:+ table +:+ " SET ") vals 0 with
  | inl p => p
  | inr (id, sql, vals, i) =>
      let query := TrimSuffix sql "," +:+ " WHERE id=?" in
      if decide (i < length vals)%nat then
        let vals := <[i := id]> vals in
        if is_empty_string id then missing_the_ID i else db_Exec query vals
      else panic_index_out_of_range i (length vals)
  end.

(** [Update(updates, table)], iterating in the order of [map_to_list]. *)
Definition Update (updates : gmap string value) (table : string) : Updated :=
  Update_in (map_to_list updates) table.

(** ** [Insert], [Fetch], [FetchAny] and [Delete] *)

(** Lines 280-284 of [Fetch] and lines 413-417 of [Insert] are the same
    loop, [for k, v := range m { sql = sql + k + tail; vals[i] = v; i++ }],
    with [tail] the text ["=? AND "] or ["=?,"]. The result is the index and
    the length of a write outside the slice, or [sql], [vals] and [i] after
    the loop. *)
Fixpoint collect (tail : string) (kvs : list (string * value)) (sql : string)
    (vals : list value) (i : nat)
  : (nat * nat) + (string * list value * nat) :=
  match kvs with
  | [] => inr (sql, vals, i)
  | (k, v) :: kvs' =>
      if decide (i < length vals)%nat
      then collect tail kvs' (sql +:+ k +:+ tail) (<[i := v]> vals) (S i)
      else inl (i, length vals)
  end.

(** The methods are kept in a module of the package's name: [Insert] and
    [Delete] are also calls of the history above. *)
Module mysql.

(** Lines 403-423 of [Insert] for one iteration order of the map, up to the
    call of [d.db.Exec]. *)
Definition Insert_in (order : list (string * value)) (table : string) : Updated :=
  let vals := replicate (length order) nil_value in
  match collect "=?," order ("INSERT INTO " +:+ table +:+ " SET ") vals 0 with
  | inl (i, n) => panic_index_out_of_range i n
  | inr (sql, vals, _) => db_Exec (TrimSuffix sql ",") vals
  end.

Definition Insert (updates : gmap string value) (table : string) : Updated :=
  Insert_in (map_to_list updates) table.

(** Lines 491-501 of [Delete], up to the call of [d.db.Exec]. Reading a
    key the map does not have gives the [nil] interface. *)
Definition Delete (updates : gmap string value) (table : string) : Updated :=
  let vals := replicate 1 nil_value in
  let vals := <[0%nat := default nil_value (updates !! "id")]> vals in
  db_Exec ("DELETE FROM " +:+ table +:+ " WHERE id=?") vals.

End mysql.

(** The values a driver hands to [Scan] ([driver.Value]). The payload of a
    float or a time plays no part in the code and is kept as text. *)
Inductive driver_Value : Type :=
| driver_nil
| driver_int64 (n : Z)
| driver_float64 (f : string)
| driver_bool (b : bool)
| driver_bytes (s : string)
| driver_string (s : string)
| driver_time (t : string).

(** What the database answers to a query: the errors of [Prepare], of
    [Query] and of [Columns], the column names and the rows. *)
Record Answer : Type := mkAnswer {
  prepare_fault : option string;
  query_fault : option string;
  columns_fault : option string;
  columns : list string;
  records : list (list driver_Value)
}.

(** How a call of [Fetch] or [FetchAny] ends. *)
Inductive Fetched (A : Type) : Type :=
| fetch_index_out_of_range (index length : nat)
| fetch_interface_conversion (v : driver_Value)  (* [v.([]byte)] on another type *)
| fetch_error (e : error)
| fetched (allRows : gmap Z (gmap string A)).
Arguments fetch_index_out_of_range {A}.
Arguments fetch_interface_conversion {A}.
Arguments fetch_error {A}.
Arguments fetched {A}.

(** Lines 334-343: the type switch of [Fetch]. [None]: the type assertion
    of the default case panics. *)
Definition Fetch_cell (v : driver_Value) : option value :=
  match v with
  | driver_int64 n => Some (int_value n)
  | driver_nil => Some nil_value
  | driver_bytes s => Some (string_value s)
  | _ => None
  end.

(** Lines 388-395: the type switch of [FetchAny]. *)
Definition FetchAny_cell (v : driver_Value) : option string :=
  match v with
  | driver_nil => Some ""
  | driver_bytes s => Some s
  | _ => None
  end.

(** Lines 334-343 and 388-395: [for k, v := range vals] filling
    [allRows[r]]; [vals] has the length of [cols]. The result is the row,
    or the value on which the type assertion panics. *)
Fixpoint Fetch_row {A : Type} (conv : driver_Value -> option A) (cols : list string)
    (vals : list driver_Value) (row : gmap string A) : driver_Value + gmap string A :=
  match cols, vals with
  | c :: cols', v :: vals' =>
      match conv v with
      | Some x => Fetch_row conv cols' vals' (<[c := x]> row)
      | None => inl v
      end
  | _, _ => inr row
  end.

(** Lines 318-346 and 373-398: [for rows.Next()]. [Scan] is given
    [len(cols)] destinations and fails on a row of another length; a
    destination of type [*interface{}] takes any value. *)
Fixpoint Fetch_loop {A : Type} (conv : driver_Value -> option A) (cols : list string)
    (rows : list (list driver_Value)) (allRows : gmap Z (gmap string A)) (r : Z)
  : Fetched A :=
  match rows with
  | [] => fetched allRows
  | vals :: rows' =>
      if decide (length vals = length cols) then
        match Fetch_row conv cols vals ∅ with
        | inr row => Fetch_loop conv cols rows' (<[r := row]> allRows) (int_incr r)
        | inl v => fetch_interface_conversion v
        end
      else fetch_error (errors_New "sql: expected destination arguments in Scan")
  end.

(** Lines 290-346 of [Fetch]: what it makes of the answer of the
    database. *)
Definition Fetch_answer (a : Answer) : Fetched value :=
  match prepare_fault a with
  | Some msg => fetch_error (errors_New msg)
  | None =>
      match query_fault a with
      | Some msg => fetch_error (errors_New msg)
      | None =>
          match columns_fault a with
          | Some msg => fetch_error (errors_New msg)
          | None => Fetch_loop Fetch_cell (columns a) (records a) ∅ 0
          end
      end
  end.

(** Lines 270-347 of [Fetch] for one iteration order of the map; [ask] is
    the database. *)
Definition Fetch_in (order : list (string * value)) (table : string)
    (ask : string -> list value -> Answer) : Fetched value :=
  let whereVals := replicate (length order) nil_value in
  match collect "=? AND " order ("SELECT * FROM " +:+ table +:+ " WHERE ") whereVals 0 with
  | inl (i, n) => fetch_index_out_of_range i n
  | inr (sql, whereVals, _) => Fetch_answer (ask (TrimSuffix sql " AND ") whereVals)
  end.

Definition Fetch (where_ : gmap string value) (table : string)
    (ask : string -> list value -> Answer) : Fetched value :=
  Fetch_in (map_to_list where_) table ask.

(** Lines 350-399 of [FetchAny]. *)
Definition FetchAny (query : string) (ask : string -> list value -> Answer)
  : Fetched string :=
  let a := ask query [] in
  match query_fault a with
  | Some msg => fetch_error (errors_New msg)
  | None =>
      match columns_fault a with
      | Some msg => fetch_error (errors_New msg)
      | None => Fetch_loop FetchAny_cell (columns a) (records a) ∅ 0
      end
  end.

(** The texts [k1 ++ tail; k2 ++ tail; ...] one after the other, and the
    texts of a list with [sep] between them. *)
Fixpoint appended (tail : string) (ks : list string) : string :=
  match ks with
  | [] => ""
  | k :: ks' => k +:+ tail +:+ appended tail ks'
  end.

Fixpoint separated (sep : string) (ts : list string) : string :=
  match ts with
  | [] => ""
  | [t] => t
  | t :: ts' => t +:+ sep +:+ separated sep ts'
  end.

(** [k=?] for each key. *)
Definition placeholders (kvs : list (string * value)) : list string :=
  (fun kv => kv.1 +:+ "=?") <$> kvs.

(** The entries other than ["id"]. *)
Definition others (kvs : list (string * value)) : list (string * value) :=
  filter (fun kv => kv.1 ≠ "id") kvs.

(** The value of the last ["id"] entry, [id] when there is none. *)
Definition last_id (kvs : list (string * value)) (id : value) : value :=
  foldl (fun acc kv => if String.eqb kv.1 "id" then kv.2 else acc) id kvs.

(** The statements a history executed, in order. *)
Definition executed (cs : list Call) : list string :=
  omap (fun c => match c with Exec b => Some b | _ => None end) cs.

(** ** Reads, servers and observations used in the statements below *)

(** A read that completes a line. *)
Definition ln (s : string) : ReadResult := mkRead s false None.

(** A read that fills the buffer before the line ends. *)
Definition part (s : string) : ReadResult := mkRead s true None.

(** What a run leaves behind that a later run or an observer can see. *)
Definition outcome (x : option SchemaError * DB * list ReadResult)
  : option SchemaError * Database * Z :=
  (x.1.1, db x.1.2, schemaChanges x.1.2).

(** The part of the history a run added to the calls made [before]. *)
Definition added (before : Database) (d : DB) : list Call :=
  drop (length (calls before)) (calls (db d)).

(** A server on which the lookup of row [id] fails. *)
Definition lookup_fails_at (id : Z) (msg : string) : Env :=
  mkEnv None None None
        (fun n => if n =? id then Some msg else None) (fun _ => None) (fun _ => None)
        (fun _ => None) (fun _ => None) (fun _ => None) ddl (fun _ rows => rows).

(** A server on which the statement given number [id] fails. *)
Definition statement_fails_at (id : Z) (msg : string) : Env :=
  mkEnv None None None
        (fun _ => None) (fun _ => None) (fun _ => None)
        (fun n => if n =? id then Some msg else None) (fun _ => None) (fun _ => None) ddl
        (fun _ rows => rows).

(** A server without faults on which the statement [stmt], and no other,
    writes [dbSchemaLog]: it sets the text of row [id] to [text], as an
    [UPDATE dbSchemaLog SET tx = ... WHERE id = ...] in the source does
    when line 193 sends it. *)
Definition rewrites_log (stmt : string) (id : Z) (text : string) : Env :=
  mkEnv None None None
        (fun _ => None) (fun _ => None) (fun _ => None)
        (fun _ => None) (fun _ => None) (fun _ => None) ddl
        (fun b rows => if String.eqb b stmt then alter (fun _ => text) id rows else rows).

(** The fragments of partial reads, put together. *)
Definition joined (frags : list ReadResult) : string :=
  foldr (fun r acc => line r +:+ acc) "" frags.

(** The log holds exactly the rows [1..N]. *)
Definition gap_free (m : gmap Z string) (N : Z) : Prop :=
  ∀ id : Z, is_Some (m !! id) ↔ 1 ≤ id ≤ N.

(** The row numbers looked up by the calls of a history, in order. *)
Definition lookups (cs : list Call) : list Z :=
  omap (fun c => match c with Select id => Some id | _ => None end) cs.

(** The row number an error message prints, for the messages that print
    one (lines 176, 184, 203 and 198). *)
Definition row_of (e : SchemaError) : option Z :=
  match e with
  | dbSchemaLog_does_not_match row _ _ => Some row
  | unable_to_insert_dbSchemaLog_row row _ => Some row
  | unable_to_make_schema_change row _ _ => Some row
  | unable_to_commit_schema_change row _ _ => Some row
  | _ => None
  end.

(** Every statement a history executes comes right after the lookup of a
    number, the opening of a transaction and the insert of the statement
    under that number. *)
Definition logged_before_executed (cs : list Call) : Prop :=
  ∀ pre b post, cs = pre ++ Exec b :: post →
    ∃ pre' id, pre = pre' ++ [Select id; BeginTx; Insert id b].

(** A server on which the insert of row [id] fails. *)
Definition insert_fails_at (id : Z) (msg : string) : Env :=
  mkEnv None None None
        (fun _ => None) (fun _ => None) (fun n => if n =? id then Some msg else None)
        (fun _ => None) (fun _ => None) (fun _ => None) ddl (fun _ rows => rows).

(** An answer of two rows with an integer and a text or [NULL] column, as
    a prepared statement gets it, and the same with a [DOUBLE] column. *)
Definition two_rows : Answer :=
  mkAnswer None None None ["id"; "name"]
    [[driver_int64 1; driver_bytes "a"]; [driver_int64 2; driver_nil]].

Definition with_double : Answer :=
  mkAnswer None None None ["id"; "price"]
    [[driver_int64 1; driver_float64 "9.5"]].

(** The rows as a query without arguments gets them: every value as
    text. *)
Definition two_rows_as_text : Answer :=
  mkAnswer None None None ["id"; "name"]
    [[driver_bytes "1"; driver_bytes "a"]; [driver_bytes "2"; driver_nil]].

(** * Properties *)

(** ** Bytes and counters *)

Lemma len_zero (s : string) : len s = 0%nat → s = "".
Proof. destruct s; [reflexivity | discriminate]. Qed.

(** The line handed on by lines 152-155 is the pending fragments followed
    by the last read, whether or not there were any. *)
Lemma assembled (pending b : string) :
  (if (0 <? len pending)%nat then pending +:+ b else b) = pending +:+ b.
Proof.
  destruct (0 <? len pending)%nat eqn:E; [reflexivity |].
  apply Nat.ltb_ge in E.
  rewrite (len_zero pending); [reflexivity | lia].
Qed.

(** After lines 152-155 no fragment is pending: [data] is reset when it
    held something, and held nothing otherwise. *)
Lemma pending_cleared (pending : string) :
  (if (0 <? len pending)%nat then "" else pending) = "".
Proof.
  destruct (0 <? len pending)%nat eqn:E; [reflexivity |].
  apply Nat.ltb_ge in E. apply len_zero. lia.
Qed.

Lemma int_incr_succ (n : Z) : n < maxInt → int_incr n = n + 1.
Proof.
  intros H. unfold int_incr.
  destruct (n =? maxInt) eqn:E; [apply Z.eqb_eq in E; lia | reflexivity].
Qed.

(** ** One statement against the log *)

Section Resolve.
Context (env : Env).

Lemma QueryRowScan_found w id dest tx :
  select_fault env id = None →
  dbSchemaLog w !! id = Some tx →
  QueryRowScan env w id dest = (tx, None, called (Select id) w).
Proof. intros Hf Hrow. unfold QueryRowScan. by rewrite Hf, Hrow. Qed.

Lemma QueryRowScan_absent w id dest :
  select_fault env id = None →
  dbSchemaLog w !! id = None →
  QueryRowScan env w id dest = (dest, Some sql_ErrNoRows, called (Select id) w).
Proof. intros Hf Hrow. unfold QueryRowScan. by rewrite Hf, Hrow. Qed.

Lemma QueryRowScan_fault w id dest msg :
  select_fault env id = Some msg →
  QueryRowScan env w id dest = (dest, Some (errors_New msg), called (Select id) w).
Proof. intros Hf. unfold QueryRowScan. by rewrite Hf. Qed.

(** A stored row with another text: the mismatch error, and nothing but
    the lookup was asked of the database. *)
Lemma resolve_mismatch w cur id b stored :
  select_fault env id = None →
  dbSchemaLog w !! id = Some stored →
  stored ≠ b →
  resolve env w cur id b
  = (Some (dbSchemaLog_does_not_match id stored b), stored, called (Select id) w).
Proof.
  intros Hf Hrow Hne. unfold resolve.
  rewrite (QueryRowScan_found _ _ _ stored) by assumption.
  destruct (String.eqb_spec stored b) as [-> | _]; [contradiction | reflexivity].
Qed.

(** [apply] begins with [BeginTx]; whatever happens then, the history
    only grows. *)
Lemma apply_calls w id b :
  ∃ more, calls (apply env w id b).2 = calls w ++ BeginTx :: more.
Proof.
  unfold apply.
  destruct (begin_fault env id); [by exists [] |]. simpl.
  destruct (decide _); simpl.
  { exists [Insert id b; Rollback]. by rewrite <- !app_assoc. }
  destruct (insert_fault env id); simpl.
  { exists [Insert id b; Rollback]. by rewrite <- !app_assoc. }
  destruct (exec_fault env id); simpl.
  - exists [Insert id b; Exec b; Delete id; Commit].
    destruct (commit_fault env id), (implicit_commit env b); simpl;
      by rewrite <- !app_assoc.
  - destruct (commit_fault env id); simpl.
    + exists [Insert id b; Exec b; Commit; Rollback].
      destruct (implicit_commit env b); simpl; by rewrite <- !app_assoc.
    + exists [Insert id b; Exec b; Commit].
      destruct (implicit_commit env b); simpl; by rewrite <- !app_assoc.
Qed.

(** What the code does in place of "skip exactly when the stored row has
    the same text": it skips when [currentTx] equals the statement after
    the lookup, and [currentTx] is the stored text only if the lookup
    found a row. *)
Lemma resolve_skips_exactly_when w cur id b :
  (∃ cur', resolve env w cur id b = (None, cur', called (Select id) w))
  ↔ (select_fault env id = None ∧ dbSchemaLog w !! id = Some b)
    ∨ ((is_Some (select_fault env id) ∨ dbSchemaLog w !! id = None) ∧ cur = b).
Proof.
  unfold resolve, QueryRowScan.
  destruct (select_fault env id) as [msg|] eqn:Hf.
  - destruct (String.eqb_spec cur b) as [-> | Hne].
    + split; [intros _; right; eauto | intros _; eauto].
    + split; [intros [? [=]] | intros [[[=] _] | [_ ?]]; contradiction].
  - destruct (dbSchemaLog w !! id) as [tx|] eqn:Hrow.
    + destruct (String.eqb_spec tx b) as [-> | Hne].
      * split; [intros _; left; eauto | intros _; eauto].
      * split; [intros [? [=]] |].
        intros [[_ [=]] | [[[? [=]] | [=]] _]]. contradiction.
    + destruct (String.eqb_spec cur b) as [-> | Hne].
      * split; [intros _; right; eauto | intros _; eauto].
      * split; [| intros [[_ [=]] | [_ ?]]; contradiction].
        intros [cur' H]. exfalso.
        destruct (apply_calls (called (Select id) w) id b) as [more Hmore].
        destruct (apply env (called (Select id) w) id b) as [r w'].
        simpl in Hmore. injection H as _ _ Hw. subst w'.
        simpl in Hmore. rewrite <- (app_nil_r (calls w ++ [Select id])) in Hmore at 1.
        apply app_inv_head in Hmore. discriminate.
Qed.

(** [apply] touches no row but its own, unless the statement does. *)
Lemma apply_rows_elsewhere w id id' b :
  id' ≠ id →
  (∀ rows, writes env b rows = rows) →
  dbSchemaLog (apply env w id b).2 !! id' = dbSchemaLog w !! id'.
Proof.
  intros Hne Hw. unfold apply, committed, called.
  repeat case_match; simpl;
    rewrite ?Hw, ?lookup_delete_ne, ?lookup_insert_ne by congruence; reflexivity.
Qed.

Lemma apply_keeps_row w id id' b s :
  id' ≠ id →
  (∀ rows, rows !! id' = Some s → writes env b rows !! id' = Some s) →
  dbSchemaLog w !! id' = Some s →
  dbSchemaLog (apply env w id b).2 !! id' = Some s.
Proof.
  intros Hne Hw Hrow. unfold apply, committed, called.
  repeat case_match; simpl; try assumption;
    try (apply Hw); rewrite ?lookup_delete_ne, ?lookup_insert_ne by congruence;
    assumption.
Qed.

Lemma apply_never_mismatch w id b row has applied :
  (apply env w id b).1 ≠ Some (dbSchemaLog_does_not_match row has applied).
Proof. unfold apply. repeat case_match; simpl; discriminate. Qed.

End Resolve.

(** ** The loop *)

Lemma Schema_loop_reconcile (env : Env) (rs : list ReadResult) :
  ∀ (d : DB) (l : Locals) (base : Z) (given : nat),
    schemaChanges d = base + Z.of_nat given →
    schemaChanges d + Z.of_nat (length rs) ≤ maxInt →
    outcome (Schema_loop env d l rs)
    = reconcile env (db d) (currentTx l) base given
        (statements (data l) rs).1 (statements (data l) rs).2.
Proof.
  induction rs as [|r rs IH]; intros d l base given Hc Hb.
  - simpl. unfold outcome. simpl. by rewrite Hc.
  - rewrite length_cons, Nat2Z.inj_succ in Hb.
    simpl Schema_loop. simpl statements. unfold iteration.
    destruct (isPrefix r).
    { rewrite (IH d (mkLocals (currentTx l) (data l +:+ line r)) base given);
        [reflexivity | assumption | simpl; lia]. }
    rewrite assembled, pending_cleared.
    destruct (rerr r) as [[| |msg]|].
    1-3: unfold outcome; simpl; by rewrite Hc.
    destruct (len (data l +:+ line r) =? 0)%nat.
    { rewrite (IH d (mkLocals (currentTx l) "") base given);
        [| assumption | simpl; lia].
      simpl. by destruct (statements "" rs). }
    rewrite int_incr_succ by lia.
    replace (schemaChanges d + 1) with (base + Z.of_nat (S given)) by lia.
    destruct (statements "" rs) as [rest failure] eqn:Hst. simpl.
    destruct (resolve env (db d) (currentTx l) (base + Z.of_nat (S given))
                (data l +:+ line r)) as [[[err|] cur] w].
    + reflexivity.
    + rewrite (IH (mkDB w (base + Z.of_nat (S given)) (schemaFail d))
                 (mkLocals cur "") base (S given)); simpl; [| reflexivity | lia].
      by rewrite Hst.
Qed.

(** C9. Blank lines take no sequence number and reach the database in no
    way, and each non-blank statement gets the number
    [schemaChanges + its position among the non-blank statements]: a run of
    the loop over the raw reads ends with the same error, the same database
    (rows and call history) and the same counter as resolving the
    blank-free statement list of [statements] with the numbers fixed by
    position alone. Holds for every database content and every behaviour of
    the server, so the numbers never depend on the log. *)
Theorem sequence_numbers_follow_position (env : Env) (d : DB) (l : Locals)
    (rs : list ReadResult) :
  schemaChanges d + Z.of_nat (length rs) ≤ maxInt →
  let '(e, d', _) := Schema_loop env d l rs in
  let '(stmts, failure) := statements (data l) rs in
  (e, db d', schemaChanges d')
  = reconcile env (db d) (currentTx l) (schemaChanges d) 0 stmts failure.
Proof.
  intros Hb.
  pose proof (Schema_loop_reconcile env rs d l (schemaChanges d) 0) as H.
  unfold outcome in H.
  destruct (Schema_loop env d l rs) as [[e d'] rest].
  destruct (statements (data l) rs) as [stmts failure].
  apply H; [simpl; lia | assumption].
Qed.

Lemma sequence_numbers_follow_position_witness :
  let '(e, d', _) :=
    Schema_loop (healthy ddl) (Connect (mkDatabase ∅ [])) (mkLocals "" "")
      [ln "CREATE TABLE a"; ln ""; ln "CREATE TABLE b"] in
  let '(stmts, failure) :=
    statements "" [ln "CREATE TABLE a"; ln ""; ln "CREATE TABLE b"] in
  (e, db d', schemaChanges d')
  = reconcile (healthy ddl) (mkDatabase ∅ []) "" 0 0 stmts failure.
Proof.
  apply (sequence_numbers_follow_position (healthy ddl)
           (Connect (mkDatabase ∅ [])) (mkLocals "" "")
           [ln "CREATE TABLE a"; ln ""; ln "CREATE TABLE b"]).
  unfold maxInt. simpl. lia.
Defined.

(** [apply] looks nothing up; [resolve] looks up its own number, once. *)
Lemma apply_no_lookup (env : Env) (w : Database) (id : Z) (b : string) :
  lookups (calls (apply env w id b).2) = lookups (calls w).
Proof.
  unfold apply, committed, called, lookups.
  repeat case_match; simpl; rewrite ?omap_app; simpl; by rewrite ?app_nil_r.
Qed.

Lemma resolve_one_lookup (env : Env) (w : Database) (cur : string) (id : Z) (b : string) :
  lookups (calls (resolve env w cur id b).2) = lookups (calls w) ++ [id].
Proof.
  assert (lookups (calls (called (Select id) w)) = lookups (calls w) ++ [id]) as Hsel.
  { unfold lookups, called. simpl. by rewrite omap_app. }
  pose proof (apply_no_lookup env (called (Select id) w) id b) as Happ.
  unfold resolve, QueryRowScan.
  destruct (select_fault env id) as [msg|].
  { by destruct (String.eqb cur b). }
  destruct (dbSchemaLog w !! id) as [tx|].
  { by destruct (String.eqb tx b). }
  destruct (String.eqb cur b); [assumption |].
  destruct (apply env (called (Select id) w) id b) as [r w2].
  simpl in *. by rewrite Happ.
Qed.

(** An error of [resolve] is not a read error, and names the number of
    the statement when it names one. *)
Lemma resolve_error_row (env : Env) (w : Database) (cur : string) (id : Z) (b : string)
    (err : SchemaError) :
  (resolve env w cur id b).1.1 = Some err →
  match err with
  | error_reading_scheme_lines _ => False
  | _ => ∀ row, row_of err = Some row → row = id
  end.
Proof.
  unfold resolve, QueryRowScan, apply.
  intros Herr.
  destruct err; simpl; try (intros ? ?; simplify_eq).
  all: repeat (case_match; simpl in *; simplify_eq).
  all: reflexivity.
Qed.

Lemma reconcile_lookups (env : Env) (base : Z) (stmts : list string) :
  ∀ (w : Database) (cur : string) (given : nat) (failure : option error),
    ∃ k : nat,
      (k ≤ length stmts)%nat
      ∧ lookups (calls (reconcile env w cur base given stmts failure).1.2)
        = lookups (calls w) ++ seqZ (base + Z.of_nat given + 1) (Z.of_nat k)
      ∧ (reconcile env w cur base given stmts failure).2 = base + Z.of_nat (given + k)
      ∧ match (reconcile env w cur base given stmts failure).1.1 with
        | None => k = length stmts ∧ failure = None
        | Some (error_reading_scheme_lines e) => k = length stmts ∧ failure = Some e
        | Some err =>
            (1 ≤ k)%nat ∧ ∀ row, row_of err = Some row → row = base + Z.of_nat (given + k)
        end.
Proof.
  induction stmts as [|b rest IH]; intros w cur given failure.
  - exists 0%nat. simpl. rewrite app_nil_r, Nat.add_0_r.
    repeat split; by destruct failure.
  - simpl. pose proof (resolve_one_lookup env w cur (base + Z.of_nat (S given)) b) as H1.
    pose proof (resolve_error_row env w cur (base + Z.of_nat (S given)) b) as H2.
    destruct (resolve env w cur (base + Z.of_nat (S given)) b) as [[[err|] cur'] w1];
      simpl in H1, H2.
    + exists 1%nat. simpl. split; [lia |]. rewrite H1. split; [| split; [f_equal; lia |]].
      * rewrite seqZ_cons, seqZ_nil by lia. do 2 f_equal. lia.
      * specialize (H2 err eq_refl).
        replace (given + 1)%nat with (S given) by lia.
        destruct err; try done; (split; [lia | assumption]).
    + destruct (IH w1 cur' (S given) failure) as (k & Hk & Hl & Hc & He).
      exists (S k). split; [simpl; lia |]. rewrite Hl, Hc, H1, <- app_assoc.
      split; [| split; [f_equal; lia |]].
      * f_equal.
        rewrite (seqZ_cons _ (Z.of_nat (S k))) by lia.
        change ([base + Z.of_nat (S given)] ++ ?t) with ((base + Z.of_nat (S given)) :: t).
        f_equal; [lia |]. f_equal; lia.
      * replace (given + S k)%nat with (S given + k)%nat by lia.
        destruct (reconcile env w1 cur' base (S given) rest failure).1.1 as [err|];
          [destruct err |];
          (destruct He as [He1 He2]; split; [lia || (by rewrite He1) | assumption]).
Qed.

(** On the call history: the numbers looked up by a run are the consecutive
    numbers after the counter it started from, one for each non-blank
    statement it got to, and the counter ends at the last of them. A run
    that returns [nil] or the read error has looked up one number for
    every statement the source gave before its end or its read error; a
    run that returns another error has looked up at least one number, and
    the row the error names, when it names one, is the last number looked
    up. *)
Lemma lookups_are_consecutive (env : Env) (d : DB) (l : Locals) (rs : list ReadResult) :
  schemaChanges d + Z.of_nat (length rs) ≤ maxInt →
  ∃ k : nat,
    (k ≤ length (statements (data l) rs).1)%nat
    ∧ lookups (calls (db (Schema_loop env d l rs).1.2))
      = lookups (calls (db d)) ++ seqZ (schemaChanges d + 1) (Z.of_nat k)
    ∧ schemaChanges (Schema_loop env d l rs).1.2 = schemaChanges d + Z.of_nat k
    ∧ match (Schema_loop env d l rs).1.1 with
      | None =>
          k = length (statements (data l) rs).1 ∧ (statements (data l) rs).2 = None
      | Some (error_reading_scheme_lines e) =>
          k = length (statements (data l) rs).1 ∧ (statements (data l) rs).2 = Some e
      | Some err =>
          (1 ≤ k)%nat
          ∧ ∀ row, row_of err = Some row → row = schemaChanges d + Z.of_nat k
      end.
Proof.
  intros Hb.
  pose proof (Schema_loop_reconcile env rs d l (schemaChanges d) 0) as H.
  unfold outcome in H.
  destruct (reconcile_lookups env (schemaChanges d) (statements (data l) rs).1
              (db d) (currentTx l) 0 (statements (data l) rs).2)
    as (k & Hk & Hl & Hc & He).
  rewrite <- H in Hl, Hc, He by (simpl; lia). simpl in Hl, Hc, He.
  exists k. split; [assumption |]. split; [| split; [assumption |]].
  - rewrite Hl. do 2 f_equal. lia.
  - exact He.
Qed.

(** One statement, from any state of the loop: when the row stored under
    the statement's number has another text, the loop returns at once with
    the error that carries that number, the stored text and the incoming
    text; the reads after this one are left unread, the rows of
    [dbSchemaLog] are as before the statement, and the only call made for
    it is the lookup. *)
Theorem stored_text_differs_halts (env : Env) (d : DB) (l : Locals)
    (r : ReadResult) (rs : list ReadResult) (stored : string) :
  isPrefix r = false →
  rerr r = None →
  len (data l +:+ line r) ≠ 0%nat →
  select_fault env (int_incr (schemaChanges d)) = None →
  dbSchemaLog (db d) !! int_incr (schemaChanges d) = Some stored →
  stored ≠ data l +:+ line r →
  ∃ d', Schema_loop env d l (r :: rs)
        = (Some (dbSchemaLog_does_not_match (int_incr (schemaChanges d)) stored
                   (data l +:+ line r)), d', rs)
      ∧ dbSchemaLog (db d') = dbSchemaLog (db d)
      ∧ calls (db d') = calls (db d) ++ [Select (int_incr (schemaChanges d))].
Proof.
  intros Hp He Hlen Hf Hrow Hne.
  simpl Schema_loop. unfold iteration.
  rewrite Hp, He, assembled.
  destruct (Nat.eqb_spec (len (data l +:+ line r)) 0); [contradiction |].
  rewrite (resolve_mismatch env _ _ _ _ stored) by assumption.
  eexists. split; [reflexivity |]. split; reflexivity.
Qed.

Lemma stored_text_differs_halts_witness :
  ∃ d', Schema_loop (healthy ddl)
          (Connect (mkDatabase {[1 := "CREATE TABLE a"]} []))
          (mkLocals "" "") [ln "CREATE TABLE b"; ln "CREATE TABLE c"]
        = (Some (dbSchemaLog_does_not_match 1 "CREATE TABLE a" "CREATE TABLE b"),
           d', [ln "CREATE TABLE c"])
      ∧ dbSchemaLog (db d') = {[1 := "CREATE TABLE a"]}
      ∧ calls (db d') = [Select 1].
Proof.
  refine (stored_text_differs_halts (healthy ddl)
            (Connect (mkDatabase {[1 := "CREATE TABLE a"]} []))
            (mkLocals "" "") (ln "CREATE TABLE b") [ln "CREATE TABLE c"]
            "CREATE TABLE a" _ _ _ _ _ _).
  - reflexivity.
  - reflexivity.
  - simpl. lia.
  - reflexivity.
  - reflexivity.
  - discriminate.
Defined.





Lemma reconcile_mismatch_unmodified (env : Env) (rows0 : gmap Z string)
    (N base : Z) (stmts : list string) :
  0 ≤ base →
  gap_free rows0 N →
  (∀ b rows, writes env b rows = rows) →
  ∀ (w : Database) (cur : string) (given : nat) (failure : option error)
    (id : Z) (stored b : string) (w' : Database) (c : Z),
    (dbSchemaLog w = rows0
     ∨ ∀ id', base + Z.of_nat given < id' → dbSchemaLog w !! id' = None) →
    reconcile env w cur base given stmts failure
    = (Some (dbSchemaLog_does_not_match id stored b), w', c) →
    select_fault env id = None →
    dbSchemaLog w' = rows0 ∧ rows0 !! id = Some stored ∧ stored ≠ b.
Proof.
  intros Hbase Hgap Hwrites.
  induction stmts as [|b0 rest IH];
    intros w cur given failure id stored b w' c Hinv Hrun Hnofault.
  - simpl in Hrun. destruct failure; discriminate.
  - simpl in Hrun. unfold resolve, QueryRowScan in Hrun.
    remember (base + Z.of_nat (S given)) as id0 eqn:Hid0.
    assert (∀ w1 : Database,
              dbSchemaLog w1 = dbSchemaLog w →
              dbSchemaLog w1 = rows0
              ∨ ∀ id', base + Z.of_nat (S given) < id' → dbSchemaLog w1 !! id' = None)
      as Hskip.
    { intros w1 Hw1. rewrite Hw1. destruct Hinv as [? | Hinv]; [by left | right].
      intros id' Hid'. apply Hinv. lia. }
    destruct (select_fault env id0) as [msg|] eqn:Hf.
    + destruct (String.eqb_spec cur b0) as [-> | Hne].
      * eapply IH; [| exact Hrun | exact Hnofault]. by apply Hskip.
      * injection Hrun as -> _ _ _ _. congruence.
    + destruct (dbSchemaLog w !! id0) as [s|] eqn:Hrow.
      * destruct (String.eqb_spec s b0) as [-> | Hne].
        -- eapply IH; [| exact Hrun | exact Hnofault]. by apply Hskip.
        -- injection Hrun as -> -> -> <- _. simpl.
           destruct Hinv as [<- | Hinv]; [done |].
           rewrite Hinv in Hrow; [discriminate | lia].
      * destruct (String.eqb_spec cur b0) as [-> | Hne].
        -- eapply IH; [| exact Hrun | exact Hnofault]. by apply Hskip.
        -- pose proof (apply_never_mismatch env (called (Select id0) w) id0 b0) as Hkind.
           pose proof (fun id' => apply_rows_elsewhere env (called (Select id0) w) id0 id' b0)
             as Hrows.
           destruct (apply env (called (Select id0) w) id0 b0) as [[err|] w2].
           ++ injection Hrun as -> _ _. by destruct (Hkind id stored b).
           ++ eapply IH; [| exact Hrun | exact Hnofault]. right.
              intros id' Hid'. simpl in Hrows. rewrite Hrows by (lia || apply Hwrites).
              destruct Hinv as [Hsame | Hinv]; [| apply Hinv; lia].
              rewrite Hsame in *. apply eq_None_not_Some. intros Hsome.
              apply Hgap in Hsome.
              assert (¬ is_Some (rows0 !! id0)) as Hno by (rewrite Hrow; by intros [? ?]).
              apply Hno, Hgap. lia.
Qed.

(** A mismatch at the level of a whole run, for a log that holds exactly
    the rows [1..N] and a source whose statements do not write
    [dbSchemaLog]: when a run returns the mismatch error for a number whose
    lookup did not fail, the row stored under that number before the run
    has the reported text, that text differs from the incoming one, and
    the rows after the run are the rows before it. *)
Lemma mismatch_leaves_gap_free_log_unmodified (env : Env) (d : DB) (l : Locals)
    (rs : list ReadResult) (N id : Z) (stored b : string) (d' : DB)
    (rest : list ReadResult) :
  0 ≤ schemaChanges d →
  schemaChanges d + Z.of_nat (length rs) ≤ maxInt →
  gap_free (dbSchemaLog (db d)) N →
  (∀ b rows, writes env b rows = rows) →
  Schema_loop env d l rs = (Some (dbSchemaLog_does_not_match id stored b), d', rest) →
  select_fault env id = None →
  dbSchemaLog (db d') = dbSchemaLog (db d)
  ∧ dbSchemaLog (db d) !! id = Some stored
  ∧ stored ≠ b.
Proof.
  intros Hc Hb Hgap Hwrites Hrun Hnofault.
  pose proof (Schema_loop_reconcile env rs d l (schemaChanges d) 0) as H.
  rewrite Hrun in H. unfold outcome in H. simpl in H.
  eapply (reconcile_mismatch_unmodified env _ N (schemaChanges d)); try eassumption.
  - by left.
  - symmetry. apply H; [lia | assumption].
Qed.

(** ** Compensation after a failed statement *)

(** The statement fails on the server after its row was inserted: the
    calls made are the insert, the statement, the delete of that row and
    the commit, the error names the row, and when the delete and the
    commit go through the rows are those from before the statement. *)
Lemma apply_failure_compensates (env : Env) (w : Database) (id : Z) (b msg : string) :
  dbSchemaLog w !! id = None →
  begin_fault env id = None →
  insert_fault env id = None →
  exec_fault env id = Some msg →
  delete_fault env id = None →
  commit_fault env id = None →
  apply env w id b
  = (Some (unable_to_make_schema_change id b (errors_New msg)),
     mkDatabase (dbSchemaLog w)
       (calls w ++ [BeginTx; Insert id b; Exec b; Delete id; Commit])).
Proof.
  intros Hrow Hb Hi He Hd Hc. unfold apply. rewrite Hb. simpl.
  destruct (decide (is_Some (dbSchemaLog w !! id))) as [[x Hx] | _];
    [congruence |].
  rewrite Hi, He, Hd, Hc. f_equal.
  unfold committed, called. simpl.
  rewrite delete_insert_id by assumption.
  destruct (implicit_commit env b); simpl; by rewrite <- !app_assoc.
Qed.

(** The delete and the commit of the compensation are not checked: when
    the statement committed the insert and the delete then fails, the same
    error is returned and the row stays. *)
Example compensation_unchecked :
  let env := mkEnv None None None (fun _ => None) (fun _ => None) (fun _ => None)
               (fun _ => Some "Table 'a' already exists")
               (fun _ => Some "invalid connection") (fun _ => None) ddl
               (fun _ rows => rows) in
  let (e, d') := Schema env (Connect (mkDatabase ∅ [])) (file (unlines ["CREATE TABLE a (n INT)"])) in
  e = Some (unable_to_make_schema_change 1 "CREATE TABLE a (n INT)"
              (errors_New "Table 'a' already exists"))
  ∧ dbSchemaLog (db d') !! 1 = Some "CREATE TABLE a (n INT)".
Proof. vm_compute. repeat split. Qed.

(** ** The loop on a blank line, a failed lookup and a failed statement *)

(** A blank line: the handle, and with it the database, the history and
    the counter, is the one from before. *)
Lemma blank_line_is_passed_over (env : Env) (d : DB) (l : Locals) (r : ReadResult) :
  isPrefix r = false →
  rerr r = None →
  len (data l +:+ line r) = 0%nat →
  iteration env d l r = Continue d (mkLocals (currentTx l) "").
Proof.
  intros Hp He Hlen. unfold iteration.
  by rewrite Hp, He, assembled, pending_cleared, Hlen.
Qed.

(** A failed lookup halts the run, provided [currentTx] does not happen to
    equal the statement. The error is the one of a mismatch and shows
    [currentTx] as the stored text. *)
Lemma failed_lookup_halts (env : Env) (d : DB) (l : Locals) (r : ReadResult)
    (rs : list ReadResult) (msg : string) :
  isPrefix r = false →
  rerr r = None →
  len (data l +:+ line r) ≠ 0%nat →
  select_fault env (int_incr (schemaChanges d)) = Some msg →
  currentTx l ≠ data l +:+ line r →
  Schema_loop env d l (r :: rs)
  = (Some (dbSchemaLog_does_not_match (int_incr (schemaChanges d)) (currentTx l)
             (data l +:+ line r)),
     mkDB (called (Select (int_incr (schemaChanges d))) (db d))
          (int_incr (schemaChanges d)) (schemaFail d),
     rs).
Proof.
  intros Hp He Hlen Hf Hne.
  simpl Schema_loop. unfold iteration.
  rewrite Hp, He, assembled.
  destruct (Nat.eqb_spec (len (data l +:+ line r)) 0); [contradiction |].
  unfold resolve. rewrite (QueryRowScan_fault env _ _ _ msg) by assumption.
  by destruct (String.eqb_spec (currentTx l) (data l +:+ line r)).
Qed.

(** A new statement that fails on the server: the row inserted for it is
    deleted again, the deletion committed, the error names the row, the
    reads after it stay unread and the rows are those from before,
    provided the delete and the commit go through and [currentTx] does not
    happen to equal the statement. *)
Lemma failed_statement_is_compensated (env : Env) (d : DB) (l : Locals)
    (r : ReadResult) (rs : list ReadResult) (msg : string) :
  isPrefix r = false →
  rerr r = None →
  len (data l +:+ line r) ≠ 0%nat →
  currentTx l ≠ data l +:+ line r →
  dbSchemaLog (db d) !! int_incr (schemaChanges d) = None →
  select_fault env (int_incr (schemaChanges d)) = None →
  begin_fault env (int_incr (schemaChanges d)) = None →
  insert_fault env (int_incr (schemaChanges d)) = None →
  exec_fault env (int_incr (schemaChanges d)) = Some msg →
  delete_fault env (int_incr (schemaChanges d)) = None →
  commit_fault env (int_incr (schemaChanges d)) = None →
  Schema_loop env d l (r :: rs)
  = (Some (unable_to_make_schema_change (int_incr (schemaChanges d))
             (data l +:+ line r) (errors_New msg)),
     mkDB (mkDatabase (dbSchemaLog (db d))
             (calls (db d)
              ++ [Select (int_incr (schemaChanges d)); BeginTx;
                  Insert (int_incr (schemaChanges d)) (data l +:+ line r);
                  Exec (data l +:+ line r);
                  Delete (int_incr (schemaChanges d)); Commit]))
          (int_incr (schemaChanges d)) (schemaFail d),
     rs).
Proof.
  intros Hp He Hlen Hne Hrow Hs Hb Hi Hx Hd Hc.
  simpl Schema_loop. unfold iteration.
  rewrite Hp, He, assembled.
  destruct (Nat.eqb_spec (len (data l +:+ line r)) 0); [contradiction |].
  unfold resolve. rewrite QueryRowScan_absent by assumption.
  destruct (String.eqb_spec (currentTx l) (data l +:+ line r)); [contradiction |].
  rewrite (apply_failure_compensates env _ _ _ msg) by assumption.
  simpl. by rewrite <- app_assoc.
Qed.

(** ** Runs of [Schema] on concrete sources *)

(** Section 8, end-to-end scenario: an empty log and two statements. *)
Example end_to_end :
  let (e, d') := Schema (healthy ddl) (Connect (mkDatabase ∅ []))
                   (file (unlines ["CREATE TABLE t(id INT)"; "INSERT INTO t VALUES (1)"])) in
  e = None
  ∧ dbSchemaLog (db d') = {[1 := "CREATE TABLE t(id INT)"; 2 := "INSERT INTO t VALUES (1)"]}
  ∧ calls (db d')
    = [BeginTx; CreateTable; Commit;
       Select 1; BeginTx; Insert 1 "CREATE TABLE t(id INT)"; Exec "CREATE TABLE t(id INT)"; Commit;
       Select 2; BeginTx; Insert 2 "INSERT INTO t VALUES (1)"; Exec "INSERT INTO t VALUES (1)"; Commit].
Proof. vm_compute. repeat split. Qed.

(** C3. The log holds row 1 only and the source repeats the statement of
    row 1 on its second line. The lookup for number 2 finds no row
    ([sql.ErrNoRows]), yet [currentTx] still holds the text read for row 1,
    the comparison of line 171 succeeds and the statement is skipped:
    nothing is inserted or executed for it. *)
Theorem skip_taken_without_a_stored_row :
  let w := mkDatabase {[1 := "INSERT INTO t VALUES (1)"]} [] in
  let (e, d') := Schema (healthy ddl) (Connect w)
                   (file (unlines ["INSERT INTO t VALUES (1)"; "INSERT INTO t VALUES (1)"])) in
  dbSchemaLog w !! 2 = None
  ∧ e = None
  ∧ calls (db d') = [BeginTx; CreateTable; Commit; Select 1; Select 2]
  ∧ dbSchemaLog (db d') = dbSchemaLog w.
Proof. vm_compute. repeat split. Qed.

(** C1. [Schema] returns [nil] although the third statement of the source
    is in the log under no number: the log has two rows afterwards, the
    source three statements. *)
Theorem nil_with_a_statement_missing_from_the_log :
  let w := mkDatabase {[1 := "CREATE TABLE a (n INT)"; 2 := "INSERT INTO a VALUES (1)"]} [] in
  let (e, d') := Schema (healthy ddl) (Connect w)
                   (file (unlines ["CREATE TABLE a (n INT)";
                                   "INSERT INTO a VALUES (1)";
                                   "INSERT INTO a VALUES (1)"])) in
  e = None
  ∧ schemaChanges d' = 3
  ∧ dbSchemaLog (db d') !! 3 = None
  ∧ dbSchemaLog (db d') = dbSchemaLog w
  ∧ size (dbSchemaLog (db d')) = 2%nat.
Proof. vm_compute. repeat split. Qed.

(** C2. From a log without gaps (row 1 only), a fresh handle and a server
    without faults, the run leaves rows 1 and 3 and no row 2. *)
Theorem run_leaves_a_gap :
  let w := mkDatabase {[1 := "INSERT INTO t VALUES (1)"]} [] in
  let (e, d') := Schema (healthy ddl) (Connect w)
                   (file (unlines ["INSERT INTO t VALUES (1)";
                                   "INSERT INTO t VALUES (1)";
                                   "CREATE TABLE u (n INT)"])) in
  e = None
  ∧ dbSchemaLog (db d') !! 1 = Some "INSERT INTO t VALUES (1)"
  ∧ dbSchemaLog (db d') !! 2 = None
  ∧ dbSchemaLog (db d') !! 3 = Some "CREATE TABLE u (n INT)".
Proof. vm_compute. repeat split. Qed.

(** C4. The lookup for number 2 fails with an error that is not
    [sql.ErrNoRows]; the statement is nevertheless skipped as already
    applied and the run ends with [nil]. *)
Theorem failed_lookup_taken_as_applied :
  let w := mkDatabase {[1 := "INSERT INTO t VALUES (1)"]} [] in
  let env := lookup_fails_at 2 "invalid connection" in
  let (e, d') := Schema env (Connect w)
                   (file (unlines ["INSERT INTO t VALUES (1)"; "INSERT INTO t VALUES (1)"])) in
  select_fault env 2 = Some "invalid connection"
  ∧ e = None
  ∧ calls (db d') = [BeginTx; CreateTable; Commit; Select 1; Select 2].
Proof. vm_compute. repeat split. Qed.

(** C5. First run: statement 2 fails on the server, its row is deleted
    again and the run ends with the error for row 2; a lookup of row 2
    then finds nothing. Second run, new handle, same source: statement 2 is
    not tried again; it is skipped because it has the text of row 1, and
    the run ends with [nil]. *)
Theorem failed_statement_not_retried :
  let src := file (unlines ["INSERT INTO test (name) VALUES ('key')";
                            "INSERT INTO test (name) VALUES ('key')"]) in
  let (e1, d1) := Schema (statement_fails_at 2 "Duplicate entry") (Connect (mkDatabase ∅ [])) src in
  let (e2, d2) := Schema (healthy ddl) (Connect (db d1)) src in
  e1 = Some (unable_to_make_schema_change 2 "INSERT INTO test (name) VALUES ('key')"
               (errors_New "Duplicate entry"))
  ∧ calls (db d1)
    = [BeginTx; CreateTable; Commit;
       Select 1; BeginTx; Insert 1 "INSERT INTO test (name) VALUES ('key')";
       Exec "INSERT INTO test (name) VALUES ('key')"; Commit;
       Select 2; BeginTx; Insert 2 "INSERT INTO test (name) VALUES ('key')";
       Exec "INSERT INTO test (name) VALUES ('key')"; Delete 2; Commit]
  ∧ dbSchemaLog (db d1) !! 2 = None
  ∧ e2 = None
  ∧ added (db d1) d2 = [BeginTx; CreateTable; Commit; Select 1; Select 2]
  ∧ dbSchemaLog (db d2) !! 2 = None.
Proof. vm_compute. repeat split. Qed.

(** C6. Two calls of [Schema] on one handle with the same source: the
    counter is a field of the handle and goes on from 2, so the second call
    finds no rows 3 and 4, applies both statements once more and records
    them under these numbers. *)
Theorem second_run_on_the_handle_applies_again :
  let src := file (unlines ["CREATE TABLE t(id INT)"; "INSERT INTO t VALUES (1)"]) in
  let (e1, d1) := Schema (healthy ddl) (Connect (mkDatabase ∅ [])) src in
  let (e2, d2) := Schema (healthy ddl) d1 src in
  e1 = None ∧ e2 = None
  ∧ schemaChanges d1 = 2 ∧ schemaChanges d2 = 4
  ∧ dbSchemaLog (db d1)
    = {[1 := "CREATE TABLE t(id INT)"; 2 := "INSERT INTO t VALUES (1)"]}
  ∧ dbSchemaLog (db d2)
    = {[1 := "CREATE TABLE t(id INT)"; 2 := "INSERT INTO t VALUES (1)";
        3 := "CREATE TABLE t(id INT)"; 4 := "INSERT INTO t VALUES (1)"]}
  ∧ added (db d1) d2
    = [BeginTx; CreateTable; Commit;
       Select 3; BeginTx; Insert 3 "CREATE TABLE t(id INT)"; Exec "CREATE TABLE t(id INT)"; Commit;
       Select 4; BeginTx; Insert 4 "INSERT INTO t VALUES (1)"; Exec "INSERT INTO t VALUES (1)"; Commit].
Proof. vm_compute. repeat split. Qed.

(** Also with a new handle for each run the second run can change the
    log: the first run skips the third statement on the text of row 1, the
    second run, having read row 2 in between, applies it. *)
Example second_run_with_a_new_handle_changes_the_log :
  let src := file (unlines ["INSERT INTO t VALUES (1)"; "CREATE TABLE u (n INT)";
                            "INSERT INTO t VALUES (1)"]) in
  let (e1, d1) := Schema (healthy ddl)
                    (Connect (mkDatabase {[1 := "INSERT INTO t VALUES (1)"]} [])) src in
  let (e2, d2) := Schema (healthy ddl) (Connect (db d1)) src in
  e1 = None ∧ e2 = None
  ∧ dbSchemaLog (db d1)
    = {[1 := "INSERT INTO t VALUES (1)"; 2 := "CREATE TABLE u (n INT)"]}
  ∧ dbSchemaLog (db d2)
    = {[1 := "INSERT INTO t VALUES (1)"; 2 := "CREATE TABLE u (n INT)";
        3 := "INSERT INTO t VALUES (1)"]}.
Proof. vm_compute. repeat split. Qed.

(** C8. A source of exactly one buffer's worth of bytes (4096) without a
    newline: [ReadLine] reports them as a partial record and then the end
    of the stream; the loop assembles the line and returns [nil] on
    [io.EOF] without having used it. One byte less and the line is
    applied as row 1. *)
Theorem pending_fragment_lost_at_end_of_stream :
  let full := file (bytes 4096 "a") in
  let (e, d') := Schema (healthy ddl) (Connect (mkDatabase ∅ [])) full in
  let (e1, d1) := Schema (healthy ddl) (Connect (mkDatabase ∅ [])) (file (bytes 4095 "a")) in
  bufio.ReadAll bufio.defaultBufSize full
  = [part (bytes 4096 "a"); mkRead "" false (Some io_EOF)]
  ∧ e = None
  ∧ calls (db d') = [BeginTx; CreateTable; Commit]
  ∧ dbSchemaLog (db d') = ∅
  ∧ e1 = None
  ∧ dbSchemaLog (db d1) = {[1 := bytes 4095 "a"]}.
Proof. vm_compute. repeat split. Qed.

(** ** Partial reads *)

Lemma append_assoc (a b c : string) : (a +:+ b) +:+ c = a +:+ (b +:+ c).
Proof.
  induction a as [|x a IH]; [reflexivity |].
  change (String x ((a +:+ b) +:+ c) = String x (a +:+ (b +:+ c))).
  by rewrite IH.
Qed.

(** A line that arrives as partial reads followed by the read that
    completes it is handled exactly like the same line arriving in one
    read: one statement, with the whole text. *)
Lemma split_line_is_one_statement (env : Env) (frags : list ReadResult) :
  ∀ (d : DB) (l : Locals) (last : string) (rs : list ReadResult),
    Forall (fun r => isPrefix r = true) frags →
    Schema_loop env d l (frags ++ ln last :: rs)
    = Schema_loop env d (mkLocals (currentTx l) "")
        (ln (data l +:+ joined frags +:+ last) :: rs).
Proof.
  induction frags as [|f frags IH]; intros d l last rs Hall.
  - simpl. unfold iteration. simpl. by rewrite !assembled, !pending_cleared.
  - inversion Hall as [|? ? Hf Hrest]; subst.
    simpl app. simpl Schema_loop at 1. unfold iteration at 1. rewrite Hf.
    rewrite IH by assumption. cbn [currentTx data joined foldr].
    by rewrite !append_assoc.
Qed.

(** Partial reads followed by the end of the stream: the loop returns
    [nil] and the fragments are gone. *)
Lemma pending_fragments_dropped (env : Env) (frags : list ReadResult) :
  ∀ (d : DB) (l : Locals) (rs : list ReadResult),
    Forall (fun r => isPrefix r = true) frags →
    Schema_loop env d l (frags ++ mkRead "" false (Some io_EOF) :: rs) = (None, d, rs).
Proof.
  induction frags as [|f frags IH]; intros d l rs Hall.
  - reflexivity.
  - inversion Hall as [|? ? Hf Hrest]; subst.
    simpl app. simpl Schema_loop. unfold iteration at 1. rewrite Hf.
    by apply IH.
Qed.

(** ** The model of [ReadLine] reaches the end of every stream *)

Lemma ReadSlice_length (room : nat) :
  ∀ s : string,
    match bufio.ReadSlice room s with
    | bufio.Delim l r => len s = (len l + 1 + len r)%nat
    | bufio.BufferFull l r => len s = (len l + len r)%nat ∧ len l = room
    | bufio.Drained l => s = l
    end.
Proof.
  induction room as [|room IH]; intros s; simpl; [done |].
  destruct s as [|c s]; simpl; [done |].
  destruct (Ascii.eqb c bufio.LF); simpl; [reflexivity |].
  specialize (IH s). destruct (bufio.ReadSlice room s); simpl.
  - unfold len in *. lia.
  - unfold len in *. lia.
  - by rewrite IH.
Qed.

Lemma chop_CR_length (s s' : string) :
  bufio.chop_CR s = Some s' → len s = S (len s').
Proof.
  revert s'. induction s as [|c s IH]; intros s'; simpl; [discriminate |].
  destruct s as [|c' s].
  - destruct (Ascii.eqb c bufio.CR); [| discriminate]. by intros [= <-].
  - destruct (bufio.chop_CR (String c' s)) as [t|]; simpl; [| discriminate].
    intros [= <-]. simpl. f_equal. by apply IH.
Qed.

(** A call that brings no error uses up at least one byte, and no call
    changes how the stream ends. *)
Lemma ReadLine_consumes (size : nat) (rd : bufio.Reader) :
  (2 ≤ size)%nat →
  let (r, rd') := bufio.ReadLine size rd in
  bufio.ending rd' = bufio.ending rd
  ∧ match rerr r with
    | None => (len (bufio.content rd') < len (bufio.content rd))%nat
    | Some e => r = mkRead "" false (Some (bufio.ending rd))
    end.
Proof.
  intros Hsize. unfold bufio.ReadLine.
  pose proof (ReadSlice_length size (bufio.content rd)) as H.
  destruct (bufio.ReadSlice size (bufio.content rd)) as [l r | l r | l].
  - simpl. split; [reflexivity | lia].
  - destruct H as [H1 H2].
    destruct (bufio.chop_CR l) as [l'|] eqn:Hc; simpl; (split; [reflexivity |]).
    + unfold len in *. simpl. lia.
    + lia.
  - destruct (Nat.eqb_spec (len l) 0) as [Hz | Hnz]; simpl; (split; [reflexivity |]).
    + reflexivity.
    + subst l. unfold len in *. simpl. lia.
Qed.

Lemma ReadLines_reaches_the_end (size : nat) (fuel : nat) :
  (2 ≤ size)%nat →
  ∀ rd : bufio.Reader,
    (len (bufio.content rd) ≤ fuel)%nat →
    ∃ pre, bufio.ReadLines fuel size rd
           = pre ++ [mkRead "" false (Some (bufio.ending rd))]
         ∧ Forall (fun r => rerr r = None) pre.
Proof.
  intros Hsize. induction fuel as [|fuel IH]; intros rd Hlen.
  - simpl. pose proof (ReadLine_consumes size rd Hsize) as H.
    destruct (bufio.ReadLine size rd) as [r rd']. destruct H as [_ H].
    destruct (rerr r) as [e|]; [| lia].
    exists []. by rewrite H.
  - simpl. pose proof (ReadLine_consumes size rd Hsize) as H.
    destruct (bufio.ReadLine size rd) as [r rd']. destruct H as [Hend H].
    destruct (rerr r) as [e|] eqn:Hr.
    + exists []. by rewrite H.
    + destruct (IH rd') as (pre & Heq & Hall); [lia |].
      exists (r :: pre). rewrite Heq, Hend. split; [reflexivity |].
      by constructor.
Qed.

(** [ReadAll] lists every read up to and including the one that reports
    how the stream ends. *)
Lemma ReadAll_reaches_the_end (rd : bufio.Reader) :
  ∃ pre, bufio.ReadAll bufio.defaultBufSize rd
         = pre ++ [mkRead "" false (Some (bufio.ending rd))]
       ∧ Forall (fun r => rerr r = None) pre.
Proof.
  apply ReadLines_reaches_the_end; [unfold bufio.defaultBufSize; lia | reflexivity].
Qed.

(** ** [Update] *)

(** Without an ["id"] entry every entry takes a slot, and [i] ends as the
    number of entries. *)
Lemma Update_range_no_id (kvs : list (string * value)) :
  "id" ∉ kvs.*1 →
  ∀ (id : value) (sql : string) (vals : list value) (i : nat),
    (i + length kvs ≤ length vals)%nat →
    ∃ sql' vals',
      Update_range kvs id sql vals i = inr (id, sql', vals', (i + length kvs)%nat)
      ∧ length vals' = length vals.
Proof.
  induction kvs as [|[k v] kvs IH]; intros Hno id sql vals i Hlen.
  - exists sql, vals. simpl. by rewrite Nat.add_0_r.
  - simpl in Hno, Hlen. apply not_elem_of_cons in Hno as [Hk Hno].
    simpl. destruct (String.eqb_spec k "id") as [-> | _]; [done |].
    destruct (decide (i < length vals)%nat) as [_ | Hge]; [| lia].
    destruct (IH Hno id (sql +:+ k +:+ "=?,") (<[i := v]> vals) (S i))
      as (sql' & vals' & Heq & Hl).
    { rewrite length_insert. lia. }
    exists sql', vals'. rewrite Heq, Hl, length_insert.
    split; [| reflexivity].
    by replace (i + S (length kvs))%nat with (S i + length kvs)%nat by lia.
Qed.

(** With exactly one ["id"] entry its value ends in [id] and one slot is
    left for it. *)
Lemma Update_range_with_id (kvs : list (string * value)) (v : value) :
  NoDup kvs.*1 →
  ("id", v) ∈ kvs →
  ∀ (id : value) (sql : string) (vals : list value) (i : nat),
    (i + length kvs ≤ S (length vals))%nat →
    ∃ sql' vals',
      Update_range kvs id sql vals i = inr (v, sql', vals', (i + length kvs - 1)%nat)
      ∧ length vals' = length vals.
Proof.
  induction kvs as [|[k x] kvs IH]; intros Hnd Hin id sql vals i Hlen.
  - by apply elem_of_nil in Hin.
  - simpl in Hnd, Hlen. apply NoDup_cons in Hnd as [Hk Hnd].
    simpl. destruct (String.eqb_spec k "id") as [-> | Hne].
    + assert (x = v) as ->.
      { apply elem_of_cons in Hin as [[= ->] | Hin]; [reflexivity |].
        exfalso. apply Hk. apply list_elem_of_fmap. by exists ("id", v). }
      destruct (Update_range_no_id kvs Hk v sql vals i) as (sql' & vals' & Heq & Hl);
        [lia |].
      exists sql', vals'. rewrite Heq. split; [| assumption].
      by replace (i + S (length kvs) - 1)%nat with (i + length kvs)%nat by lia.
    + apply elem_of_cons in Hin as [[= <- _] | Hin]; [done |].
      assert (0 < length kvs)%nat by (destruct kvs; [by apply elem_of_nil in Hin | simpl; lia]).
      destruct (decide (i < length vals)%nat) as [_ | Hge]; [| lia].
      destruct (IH Hnd Hin id (sql +:+ k +:+ "=?,") (<[i := x]> vals) (S i))
        as (sql' & vals' & Heq & Hl).
      { rewrite length_insert. lia. }
      exists sql', vals'. rewrite Heq, Hl, length_insert.
      split; [| reflexivity].
      by replace (i + S (length kvs) - 1)%nat with (S i + length kvs - 1)%nat by lia.
Qed.

Lemma is_empty_string_spec (v : value) :
  is_empty_string v = true ↔ v = string_value "".
Proof.
  destruct v as [|s| |]; simpl; try (split; [discriminate | discriminate]).
  destruct (String.eqb_spec s ""); split; congruence.
Qed.

(** C10. Whatever order the map is walked in: when [updates] has no ["id"]
    key, [Update] ends in the write [vals[i] = id] at index [len(updates)]
    of a slice of that length, an index out of range, and the check of
    line 470 is not reached; and the "missing the ID" error comes back
    exactly when the map has ["id"] mapped to the empty string. *)
Theorem Update_without_id_is_out_of_range (updates : gmap string value)
    (table : string) (order : list (string * value)) :
  order ≡ₚ map_to_list updates →
  (updates !! "id" = None →
   Update_in order table = panic_index_out_of_range (size updates) (size updates))
  ∧ (∀ i, Update_in order table = missing_the_ID i
          ↔ updates !! "id" = Some (string_value "") ∧ i = (size updates - 1)%nat).
Proof.
  intros Hperm.
  assert (length order = size updates) as Hsize.
  { by rewrite Hperm, length_map_to_list. }
  assert (NoDup order.*1) as Hnd.
  { rewrite Hperm. apply NoDup_fst_map_to_list. }
  assert (∀ k v, (k, v) ∈ order ↔ updates !! k = Some v) as Hin.
  { intros k v. rewrite Hperm. apply elem_of_map_to_list. }
  unfold Update_in.
  destruct (updates !! "id") as [v|] eqn:Hid.
  - apply Hin in Hid.
    destruct (Update_range_with_id order v Hnd Hid nil_value
                ("UPDATE " +:+ table +:+ " SET ")
                (replicate (length order) nil_value) 0)
      as (sql' & vals' & Heq & Hl).
    { rewrite length_replicate. lia. }
    rewrite Heq, Hl, length_replicate, Hsize. simpl.
    assert (0 < size updates)%nat.
    { rewrite <- Hsize. destruct order; [by apply elem_of_nil in Hid | simpl; lia]. }
    destruct (decide _) as [_ | Hge]; [| lia].
    split; [discriminate |].
    intros i. destruct (is_empty_string v) eqn:He.
    + apply is_empty_string_spec in He as ->.
      split; [intros [= <-]; by split | intros [_ ->]; reflexivity].
    + split; [discriminate |]. intros [[= ->] _]. discriminate He.
  - assert ("id" ∉ order.*1) as Hno.
    { intros Hk. apply list_elem_of_fmap in Hk as [[k v] [Hk Hkv]].
      simpl in Hk. subst k. apply Hin in Hkv. congruence. }
    destruct (Update_range_no_id order Hno nil_value
                ("UPDATE " +:+ table +:+ " SET ")
                (replicate (length order) nil_value) 0)
      as (sql' & vals' & Heq & Hl).
    { rewrite length_replicate. lia. }
    rewrite Heq, Hl, length_replicate, Hsize. simpl.
    destruct (decide _) as [Hlt | _]; [lia |].
    split; [reflexivity |].
    intros i. split; [discriminate | intros [[=] _]].
Qed.

Lemma Update_without_id_is_out_of_range_witness :
  (({[ "field1" := string_value "newvalue" ]} : gmap string value) !! "id" = None →
   Update_in [("field1", string_value "newvalue")] "mytable"
   = panic_index_out_of_range
       (size ({[ "field1" := string_value "newvalue" ]} : gmap string value))
       (size ({[ "field1" := string_value "newvalue" ]} : gmap string value)))
  ∧ (∀ i, Update_in [("field1", string_value "newvalue")] "mytable" = missing_the_ID i
          ↔ ({[ "field1" := string_value "newvalue" ]} : gmap string value) !! "id"
            = Some (string_value "")
            ∧ i = (size ({[ "field1" := string_value "newvalue" ]} : gmap string value) - 1)%nat).
Proof.
  refine (Update_without_id_is_out_of_range
            {[ "field1" := string_value "newvalue" ]} "mytable"
            [("field1", string_value "newvalue")] _).
  vm_compute. reflexivity.
Defined.

(** The usage example of the package comment, and the same map with the
    ["id"] entry left out or left empty. *)
Example Update_usage :
  Update {[ "field1" := string_value "newvalue"; "id" := string_value "1" ]} "mytable"
  = db_Exec "UPDATE mytable SET field1=? WHERE id=?"
      [string_value "newvalue"; string_value "1"]
  ∧ Update {[ "field1" := string_value "newvalue" ]} "mytable"
    = panic_index_out_of_range 1 1
  ∧ Update {[ "field1" := string_value "newvalue"; "id" := string_value "" ]} "mytable"
    = missing_the_ID 1.
Proof. vm_compute. repeat split. Qed.

(** * More of the package *)

(** ** The queries of [Insert], [Fetch] and [Update] *)

Lemma len_append (a b : string) : len (a +:+ b) = (len a + len b)%nat.
Proof. induction a as [|x a IH]; [reflexivity |]. unfold len in *. simpl. by rewrite IH. Qed.

Lemma append_nil_r (a : string) : a +:+ "" = a.
Proof.
  induction a as [|x a IH]; [reflexivity |].
  change (String x (a +:+ "") = String x a). by rewrite IH.
Qed.

Lemma TrimSuffix_cons (c : ascii) (s suffix : string) :
  TrimSuffix (String c s) suffix
  = if String.eqb (String c s) suffix then "" else String c (TrimSuffix s suffix).
Proof. reflexivity. Qed.

(** [TrimSuffix] looks at the end of its argument only. *)
Lemma TrimSuffix_app_r (s w suffix : string) :
  (len suffix ≤ len w)%nat →
  TrimSuffix (s +:+ w) suffix = s +:+ TrimSuffix w suffix.
Proof.
  intros Hlen. induction s as [|c s IH]; [reflexivity |].
  change (TrimSuffix (String c (s +:+ w)) suffix = String c (s +:+ TrimSuffix w suffix)).
  rewrite TrimSuffix_cons.
  destruct (String.eqb_spec (String c (s +:+ w)) suffix) as [Heq | _].
  - apply (f_equal len) in Heq. change (len (String c (s +:+ w))) with (S (len (s +:+ w))) in Heq.
    rewrite len_append in Heq. lia.
  - by rewrite IH.
Qed.

Lemma TrimSuffix_self (suffix : string) : TrimSuffix suffix suffix = "".
Proof. destruct suffix; [reflexivity |]. by rewrite TrimSuffix_cons, String.eqb_refl. Qed.

Lemma appended_separated (mid sep : string) (ks : list string) :
  ks ≠ [] →
  appended (mid +:+ sep) ks = separated sep ((fun k => k +:+ mid) <$> ks) +:+ sep.
Proof.
  induction ks as [|k ks IH]; [done |]. intros _.
  destruct ks as [|k' ks].
  - simpl. by rewrite append_nil_r, append_assoc.
  - change (k +:+ (mid +:+ sep) +:+ appended (mid +:+ sep) (k' :: ks)
            = ((k +:+ mid) +:+ sep +:+ separated sep ((fun k => k +:+ mid) <$> (k' :: ks))) +:+ sep).
    rewrite IH by done. by rewrite !append_assoc.
Qed.

(** The text after [SET] or [WHERE], once the separator left over at the
    end is trimmed; with no key, nothing is trimmed. *)
Lemma TrimSuffix_appended (head mid sep : string) (ks : list string) :
  (len sep ≤ len head)%nat →
  TrimSuffix head sep = head →
  TrimSuffix (head +:+ appended (mid +:+ sep) ks) sep
  = head +:+ separated sep ((fun k => k +:+ mid) <$> ks).
Proof.
  intros Hlen Hhead. destruct ks as [|k ks].
  - simpl. by rewrite !append_nil_r.
  - rewrite appended_separated by done.
    rewrite <- append_assoc, TrimSuffix_app_r by lia.
    by rewrite TrimSuffix_self, append_nil_r.
Qed.

Lemma collect_spec (tail : string) (kvs : list (string * value)) :
  ∀ (sql : string) (pre : list value) (r : nat),
    (length kvs ≤ r)%nat →
    collect tail kvs sql (pre ++ replicate r nil_value) (length pre)
    = inr (sql +:+ appended tail kvs.*1,
           pre ++ kvs.*2 ++ replicate (r - length kvs) nil_value,
           (length pre + length kvs)%nat).
Proof.
  induction kvs as [|[k v] kvs IH]; intros sql pre r Hr.
  - simpl. by rewrite append_nil_r, Nat.sub_0_r, Nat.add_0_r.
  - simpl in Hr. destruct r as [|r]; [lia |].
    simpl collect. rewrite length_app. simpl length.
    destruct (decide _) as [_ | Hge]; [| lia].
    rewrite insert_app_r_alt, Nat.sub_diag by lia. simpl.
    replace (pre ++ v :: replicate r nil_value)
      with ((pre ++ [v]) ++ replicate r nil_value) by by rewrite <- app_assoc.
    replace (S (length pre)) with (length (pre ++ [v])) by (rewrite length_app; simpl; lia).
    rewrite IH by lia. rewrite length_app. simpl.
    rewrite <- app_assoc. simpl.
    rewrite !append_assoc.
    by replace (length pre + 1 + length kvs)%nat with (length pre + S (length kvs))%nat by lia.
Qed.

Lemma TrimSuffix_untouched (p w suffix : string) :
  (len suffix ≤ len w)%nat →
  TrimSuffix w suffix = w →
  TrimSuffix (p +:+ w) suffix = p +:+ w.
Proof. intros Hlen Hw. by rewrite TrimSuffix_app_r, Hw. Qed.

(** [Insert], whatever the order the map is walked in: the query is
    [INSERT INTO <table> SET k1=?,k2=?,...] with the keys in that order,
    the parameters are the values in the same order, and no write leaves
    the slice. With an empty map nothing follows [SET]. *)
Theorem Insert_query_and_values (order : list (string * value)) (table : string) :
  mysql.Insert_in order table
  = db_Exec ("INSERT INTO " +:+ table +:+ " SET " +:+ separated "," (placeholders order))
      order.*2.
Proof.
  unfold mysql.Insert_in.
  pose proof (collect_spec "=?," order ("INSERT INTO " +:+ table +:+ " SET ") []
                (length order)) as H.
  simpl in H. rewrite H by lia. cbv beta iota.
  rewrite Nat.sub_diag. change (replicate 0 nil_value) with (@nil value).
  rewrite app_nil_r. f_equal.
  change "=?," with ("=?" +:+ ",").
  rewrite TrimSuffix_appended.
  - unfold placeholders. rewrite <- list_fmap_compose.
    rewrite (append_assoc "INSERT INTO "), (append_assoc table). reflexivity.
  - rewrite !len_append. simpl. lia.
  - rewrite <- append_assoc. apply TrimSuffix_untouched; [simpl; lia | reflexivity].
Qed.

(** [Fetch], whatever the order the map is walked in: the database is
    asked [SELECT * FROM <table> WHERE k1=? AND k2=? ...] with the values
    in the order of the keys, and the result is what [Fetch] makes of the
    answer. With an empty map nothing follows [WHERE]. *)
Theorem Fetch_query_and_values (order : list (string * value)) (table : string)
    (ask : string -> list value -> Answer) :
  Fetch_in order table ask
  = Fetch_answer
      (ask ("SELECT * FROM " +:+ table +:+ " WHERE "
            +:+ separated " AND " (placeholders order))
           order.*2).
Proof.
  unfold Fetch_in.
  pose proof (collect_spec "=? AND " order ("SELECT * FROM " +:+ table +:+ " WHERE ") []
                (length order)) as H.
  simpl in H. rewrite H by lia. cbv beta iota.
  rewrite Nat.sub_diag. change (replicate 0 nil_value) with (@nil value).
  rewrite app_nil_r. f_equal. f_equal.
  change "=? AND " with ("=?" +:+ " AND ").
  rewrite TrimSuffix_appended.
  - unfold placeholders. rewrite <- list_fmap_compose.
    rewrite (append_assoc "SELECT * FROM "), (append_assoc table). reflexivity.
  - rewrite !len_append. simpl. lia.
  - rewrite <- append_assoc. apply TrimSuffix_untouched; [simpl; lia | reflexivity].
Qed.

Lemma others_cons_id (v : value) (kvs : list (string * value)) :
  others (("id", v) :: kvs) = others kvs.
Proof. unfold others. by rewrite filter_cons_False by (simpl; intros H; by apply H). Qed.

Lemma others_cons_other (k : string) (v : value) (kvs : list (string * value)) :
  k ≠ "id" → others ((k, v) :: kvs) = (k, v) :: others kvs.
Proof. intros Hk. unfold others. by rewrite filter_cons_True. Qed.

Lemma others_length (kvs : list (string * value)) :
  (length (others kvs) ≤ length kvs)%nat.
Proof. apply length_filter. Qed.

Lemma Update_range_spec (kvs : list (string * value)) :
  ∀ (id : value) (sql : string) (pre : list value) (r : nat),
    (length (others kvs) ≤ r)%nat →
    Update_range kvs id sql (pre ++ replicate r nil_value) (length pre)
    = inr (last_id kvs id,
           sql +:+ appended "=?," (others kvs).*1,
           pre ++ (others kvs).*2 ++ replicate (r - length (others kvs)) nil_value,
           (length pre + length (others kvs))%nat).
Proof.
  induction kvs as [|[k v] kvs IH]; intros id sql pre r Hr.
  - simpl. by rewrite append_nil_r, Nat.sub_0_r, Nat.add_0_r.
  - simpl Update_range. destruct (String.eqb_spec k "id") as [-> | Hk].
    + rewrite others_cons_id in *. rewrite IH by assumption.
      unfold last_id. simpl. reflexivity.
    + rewrite others_cons_other in * by assumption. simpl in Hr.
      destruct r as [|r]; [lia |].
      rewrite length_app. simpl length.
      destruct (decide _) as [_ | Hge]; [| lia].
      rewrite insert_app_r_alt, Nat.sub_diag by lia. simpl.
      replace (pre ++ v :: replicate r nil_value)
        with ((pre ++ [v]) ++ replicate r nil_value) by by rewrite <- app_assoc.
      replace (S (length pre)) with (length (pre ++ [v])) by (rewrite length_app; simpl; lia).
      rewrite IH by lia. rewrite length_app. simpl.
      rewrite <- app_assoc. simpl.
      rewrite !append_assoc.
      replace (length pre + 1 + length (others kvs))%nat
        with (length pre + S (length (others kvs)))%nat by lia.
      unfold last_id. simpl. destruct (String.eqb_spec k "id"); [contradiction | reflexivity].
Qed.

Lemma last_id_no_id (kvs : list (string * value)) (id : value) :
  "id" ∉ kvs.*1 → last_id kvs id = id ∧ others kvs = kvs.
Proof.
  revert id. induction kvs as [|[k v] kvs IH]; intros id Hno; [done |].
  simpl in Hno. apply not_elem_of_cons in Hno as [Hk Hno].
  rewrite others_cons_other by done.
  unfold last_id in *. simpl.
  destruct (String.eqb_spec k "id"); [done |].
  destruct (IH id Hno) as [-> ->]. done.
Qed.

Lemma last_id_unique (kvs : list (string * value)) (v id : value) :
  NoDup kvs.*1 → ("id", v) ∈ kvs →
  last_id kvs id = v ∧ S (length (others kvs)) = length kvs.
Proof.
  revert id. induction kvs as [|[k x] kvs IH]; intros id Hnd Hin.
  - by apply elem_of_nil in Hin.
  - simpl in Hnd. apply NoDup_cons in Hnd as [Hk Hnd].
    destruct (String.eqb_spec k "id") as [-> | Hne].
    + assert (x = v) as ->.
      { apply elem_of_cons in Hin as [[= ->] | Hin]; [reflexivity |].
        exfalso. apply Hk. apply list_elem_of_fmap. by exists ("id", v). }
      rewrite others_cons_id.
      destruct (last_id_no_id kvs v Hk) as [H1 H2].
      unfold last_id in *. simpl. rewrite H1, H2. done.
    + apply elem_of_cons in Hin as [[= <- _] | Hin]; [done |].
      rewrite others_cons_other by done.
      destruct (IH id Hnd Hin) as [H1 H2].
      unfold last_id in *. simpl.
      destruct (String.eqb_spec k "id"); [done |]. rewrite H1, H2. done.
Qed.

(** [Update] on a map that has an ["id"] other than the empty string,
    whatever the order the map is walked in: the query is
    [UPDATE <table> SET k1=?,... WHERE id=?] over the other keys in that
    order, and the parameters are their values in the same order followed
    by the id. *)
Theorem Update_query_and_values (updates : gmap string value) (table : string)
    (order : list (string * value)) (v : value) :
  order ≡ₚ map_to_list updates →
  updates !! "id" = Some v →
  is_empty_string v = false →
  Update_in order table
  = db_Exec ("UPDATE " +:+ table +:+ " SET "
             +:+ separated "," (placeholders (others order)) +:+ " WHERE id=?")
      ((others order).*2 ++ [v]).
Proof.
  intros Hperm Hid Hv.
  assert (NoDup order.*1) as Hnd.
  { rewrite Hperm. apply NoDup_fst_map_to_list. }
  assert (("id", v) ∈ order) as Hin.
  { rewrite Hperm. by apply elem_of_map_to_list. }
  destruct (last_id_unique order v nil_value Hnd Hin) as [Hlast Hlen].
  unfold Update_in.
  pose proof (Update_range_spec order nil_value ("UPDATE " +:+ table +:+ " SET ") []
                (length order) (others_length order)) as H.
  simpl in H. rewrite H, Hlast. cbv beta iota zeta.
  replace (length order - length (others order))%nat with 1%nat by lia.
  change (replicate 1 nil_value) with [nil_value].
  rewrite length_app, length_fmap. simpl length.
  destruct (decide _) as [_ | Hge]; [| lia].
  rewrite Hv.
  rewrite insert_app_r_alt by (rewrite length_fmap; lia).
  rewrite length_fmap, Nat.sub_diag.
  change (<[0%nat := v]> [nil_value]) with [v]. f_equal.
  change "=?," with ("=?" +:+ ",").
  rewrite TrimSuffix_appended.
  - unfold placeholders. rewrite <- list_fmap_compose.
    rewrite !append_assoc. reflexivity.
  - rewrite !len_append. simpl. lia.
  - rewrite <- append_assoc. apply TrimSuffix_untouched; [simpl; lia | reflexivity].
Qed.


Lemma Update_query_and_values_witness :
  Update {[ "field1" := string_value "newvalue"; "id" := string_value "1" ]} "mytable"
  = db_Exec "UPDATE mytable SET field1=? WHERE id=?"
      [string_value "newvalue"; string_value "1"].
Proof.
  refine (Update_query_and_values
            {[ "field1" := string_value "newvalue"; "id" := string_value "1" ]} "mytable"
            (map_to_list
               ({[ "field1" := string_value "newvalue"; "id" := string_value "1" ]}
                : gmap string value))
            (string_value "1") _ _ _).
  - reflexivity.
  - reflexivity.
  - reflexivity.
Defined.

(** ** Rows fetched *)

Section Rows.
Context {A : Type} (conv : driver_Value -> option A).

Lemma Fetch_row_ok (cols : list string) :
  ∀ (vals : list driver_Value) (acc : gmap string A),
    length vals = length cols →
    Forall (fun v => is_Some (conv v)) vals →
    ∃ rm, Fetch_row conv cols vals acc = inr rm
        ∧ (∀ c, c ∉ cols → rm !! c = acc !! c)
        ∧ (∀ c, c ∈ cols → is_Some (rm !! c))
        ∧ (∀ (k : nat) c v,
             cols !! k = Some c → vals !! k = Some v →
             (∀ k' : nat, (k < k')%nat → cols !! k' ≠ Some c) →
             rm !! c = conv v).
Proof.
  induction cols as [|c0 cols IH]; intros vals acc Hlen Hconv.
  - exists acc. destruct vals; [| done]. simpl. repeat split; try done.
    intros c Hc. by apply elem_of_nil in Hc.
  - destruct vals as [|v0 vals]; [done |]. simpl in Hlen.
    apply Forall_cons in Hconv as [[x Hx] Hconv].
    simpl. rewrite Hx.
    destruct (IH vals (<[c0 := x]> acc)) as (rm & Heq & Hout & Hin & Hcell);
      [lia | assumption |].
    exists rm. split; [assumption |]. repeat split.
    + intros c Hc. apply not_elem_of_cons in Hc as [Hne Hc].
      rewrite Hout by assumption. by rewrite lookup_insert_ne.
    + intros c Hc. destruct (decide (c ∈ cols)) as [Hc' | Hc']; [by apply Hin |].
      apply elem_of_cons in Hc as [-> | Hc]; [| contradiction].
      rewrite Hout by assumption. rewrite lookup_insert_eq. by eexists.
    + intros k c v Hk Hv Hlast. destruct k as [|k]; simpl in Hk, Hv.
      * injection Hk as ->. injection Hv as ->.
        rewrite Hout, lookup_insert_eq; [done |].
        intros Hc. apply list_elem_of_lookup in Hc as [k' Hk'].
        apply (Hlast (S k')); [lia | exact Hk'].
      * apply (Hcell k c v Hk Hv). intros k' Hlt. apply (Hlast (S k')). lia.
Qed.

Lemma Fetch_row_inl (cols : list string) :
  ∀ (vals : list driver_Value) (acc : gmap string A) (v : driver_Value),
    Fetch_row conv cols vals acc = inl v → conv v = None ∧ v ∈ vals.
Proof.
  induction cols as [|c0 cols IH]; intros vals acc v H; [done |].
  destruct vals as [|v0 vals]; [done |]. simpl in H.
  destruct (conv v0) as [x|] eqn:Hx.
  - destruct (IH _ _ _ H) as [? ?]. split; [done | by right].
  - injection H as <-. split; [done | by left].
Qed.

Lemma Fetch_row_inr (cols : list string) :
  ∀ (vals : list driver_Value) (acc rm : gmap string A),
    length vals = length cols →
    Fetch_row conv cols vals acc = inr rm →
    Forall (fun v => is_Some (conv v)) vals.
Proof.
  induction cols as [|c0 cols IH]; intros vals acc rm Hlen H.
  - destruct vals; [constructor | done].
  - destruct vals as [|v0 vals]; [done |]. simpl in H, Hlen.
    destruct (conv v0) as [x|] eqn:Hx; [| done].
    constructor; [by eexists |]. eapply IH; [| exact H]. lia.
Qed.

Lemma Fetch_loop_ok (cols : list string) (rows : list (list driver_Value)) :
  ∀ (acc : gmap Z (gmap string A)) (r0 : Z),
    Forall (fun row => length row = length cols) rows →
    Forall (Forall (fun v => is_Some (conv v))) rows →
    r0 + Z.of_nat (length rows) ≤ maxInt →
    ∃ m, Fetch_loop conv cols rows acc r0 = fetched m
       ∧ (∀ z, z < r0 ∨ r0 + Z.of_nat (length rows) ≤ z → m !! z = acc !! z)
       ∧ (∀ (i : nat) row,
            rows !! i = Some row →
            ∃ rm, m !! (r0 + Z.of_nat i) = Some rm
                ∧ Fetch_row conv cols row ∅ = inr rm).
Proof.
  induction rows as [|row rows IH]; intros acc r0 Hlen Hconv Hb.
  - exists acc. simpl. repeat split; done.
  - apply Forall_cons in Hlen as [Hl Hlen]. apply Forall_cons in Hconv as [Hc Hconv].
    simpl in Hb. simpl.
    destruct (decide (length row = length cols)) as [_ | ?]; [| contradiction].
    destruct (Fetch_row_ok cols row ∅ Hl Hc) as (rm0 & Hrow & _).
    rewrite Hrow, int_incr_succ by lia.
    destruct (IH (<[r0 := rm0]> acc) (r0 + 1) Hlen Hconv) as (m & Heq & Hout & Hin); [lia |].
    exists m. split; [assumption |]. split.
    + intros z Hz. rewrite Hout by lia. apply lookup_insert_ne. lia.
    + intros i row' Hi. destruct i as [|i]; simpl in Hi.
      * injection Hi as <-. exists rm0. split; [| assumption].
        rewrite Hout by lia. rewrite Z.add_0_r. apply lookup_insert_eq.
      * destruct (Hin i row' Hi) as (rm & Hm & Hr). exists rm. split; [| assumption].
        rewrite <- Hm. f_equal. lia.
Qed.

(** The rows come back under the numbers [0], [1], ... in the order the
    database delivered them, each as a map from the column names to the
    converted cells; of several columns of one name the last is kept. *)
Lemma Fetch_loop_rows (cols : list string) (rows : list (list driver_Value)) :
  Forall (fun row => length row = length cols) rows →
  Forall (Forall (fun v => is_Some (conv v))) rows →
  Z.of_nat (length rows) ≤ maxInt →
  ∃ m, Fetch_loop conv cols rows ∅ 0 = fetched m
     ∧ (∀ z, is_Some (m !! z) ↔ 0 ≤ z < Z.of_nat (length rows))
     ∧ (∀ (i : nat) row,
          rows !! i = Some row →
          ∃ rm, m !! Z.of_nat i = Some rm
              ∧ (∀ c, is_Some (rm !! c) ↔ c ∈ cols)
              ∧ (∀ (k : nat) c v,
                   cols !! k = Some c → row !! k = Some v →
                   (∀ k' : nat, (k < k')%nat → cols !! k' ≠ Some c) →
                   rm !! c = conv v)).
Proof.
  intros Hlen Hconv Hb.
  destruct (Fetch_loop_ok cols rows ∅ 0 Hlen Hconv) as (m & Heq & Hout & Hin); [lia |].
  exists m. split; [assumption |]. split.
  - intros z. split.
    + intros Hsome. destruct (decide (0 ≤ z < Z.of_nat (length rows))) as [? | Hz]; [done |].
      rewrite Hout in Hsome by lia. rewrite lookup_empty in Hsome. by destruct Hsome.
    + intros Hz. destruct (lookup_lt_is_Some_2 rows (Z.to_nat z)) as [row Hrow]; [lia |].
      destruct (Hin _ _ Hrow) as (rm & Hm & _).
      replace (0 + Z.of_nat (Z.to_nat z)) with z in Hm by lia. by eexists.
  - intros i row Hrow.
    destruct (Hin _ _ Hrow) as (rm & Hm & Hr). exists rm.
    split; [exact Hm |].
    assert (length row = length cols) as Hl by (eapply Forall_lookup_1 in Hlen; eauto).
    assert (Forall (fun v => is_Some (conv v)) row) as Hc
      by (eapply Forall_lookup_1 in Hconv; eauto).
    destruct (Fetch_row_ok cols row ∅ Hl Hc) as (rm' & Hr' & Hout' & Hin' & Hcell).
    rewrite Hr in Hr'. injection Hr' as <-.
    split; [| exact Hcell].
    intros c. split; [| apply Hin'].
    intros Hsome. destruct (decide (c ∈ cols)) as [? | Hc']; [done |].
    rewrite Hout' in Hsome by assumption. rewrite lookup_empty in Hsome. by destruct Hsome.
Qed.

(** A cell of a type the switch has no case for stops the call with a
    panic, whatever came before it. *)
Lemma Fetch_loop_panics (cols : list string) (rows : list (list driver_Value)) :
  ∀ (acc : gmap Z (gmap string A)) (r0 : Z),
    Forall (fun row => length row = length cols) rows →
    Exists (Exists (fun v => conv v = None)) rows →
    ∃ v, Fetch_loop conv cols rows acc r0 = fetch_interface_conversion v
       ∧ conv v = None.
Proof.
  induction rows as [|row rows IH]; intros acc r0 Hlen Hbad.
  - by apply Exists_nil in Hbad.
  - apply Forall_cons in Hlen as [Hl Hlen]. simpl.
    destruct (decide (length row = length cols)) as [_ | ?]; [| contradiction].
    destruct (Fetch_row conv cols row ∅) as [v | rm] eqn:Hrow.
    + exists v. split; [reflexivity |]. by apply Fetch_row_inl in Hrow as [? _].
    + apply Fetch_row_inr in Hrow; [| assumption].
      apply Exists_cons in Hbad as [Hhere | Hlater]; [| by apply IH].
      exfalso. apply Exists_exists in Hhere as (v & Hv & Hnone).
      rewrite Forall_forall in Hrow. destruct (Hrow v Hv) as [x Hx]. congruence.
Qed.

End Rows.

(** [Fetch], when the database answers without error and every cell is an
    [int64], [NULL] or [[]byte]: the rows come back under the numbers 0, 1,
    ... in the order delivered; each is a map with exactly the column names
    as keys, holding the cell as [int64], [nil] or [string]; of several
    columns of one name the last is kept. *)
Theorem Fetch_rows_by_number_and_column (a : Answer) :
  prepare_fault a = None →
  query_fault a = None →
  columns_fault a = None →
  Forall (fun row => length row = length (columns a)) (records a) →
  Forall (Forall (fun v => is_Some (Fetch_cell v))) (records a) →
  Z.of_nat (length (records a)) ≤ maxInt →
  ∃ m, Fetch_answer a = fetched m
     ∧ (∀ z, is_Some (m !! z) ↔ 0 ≤ z < Z.of_nat (length (records a)))
     ∧ (∀ (i : nat) row,
          records a !! i = Some row →
          ∃ rm, m !! Z.of_nat i = Some rm
              ∧ (∀ c, is_Some (rm !! c) ↔ c ∈ columns a)
              ∧ (∀ (k : nat) c v,
                   columns a !! k = Some c → row !! k = Some v →
                   (∀ k' : nat, (k < k')%nat → columns a !! k' ≠ Some c) →
                   rm !! c = Fetch_cell v)).
Proof.
  intros Hp Hq Hc Hlen Hconv Hb. unfold Fetch_answer. rewrite Hp, Hq, Hc.
  by apply Fetch_loop_rows.
Qed.

Lemma Fetch_rows_by_number_and_column_witness :
  ∃ m, Fetch_answer two_rows = fetched m
     ∧ (∀ z, is_Some (m !! z) ↔ 0 ≤ z < 2)
     ∧ (∀ (i : nat) row,
          records two_rows !! i = Some row →
          ∃ rm, m !! Z.of_nat i = Some rm
              ∧ (∀ c, is_Some (rm !! c) ↔ c ∈ columns two_rows)
              ∧ (∀ (k : nat) c v,
                   columns two_rows !! k = Some c → row !! k = Some v →
                   (∀ k' : nat, (k < k')%nat → columns two_rows !! k' ≠ Some c) →
                   rm !! c = Fetch_cell v)).
Proof.
  refine (Fetch_rows_by_number_and_column two_rows _ _ _ _ _ _).
  - reflexivity.
  - reflexivity.
  - reflexivity.
  - repeat constructor.
  - repeat constructor; by eexists.
  - unfold maxInt. simpl. lia.
Defined.

(** [Fetch], when the database answers without error and some cell is of
    another type than [int64], [NULL] and [[]byte] (a [float64], [bool],
    [string] or [time.Time]): the call panics in the type assertion of
    line 341 and returns nothing. *)
Theorem Fetch_panics_on_other_types (a : Answer) :
  prepare_fault a = None →
  query_fault a = None →
  columns_fault a = None →
  Forall (fun row => length row = length (columns a)) (records a) →
  Exists (Exists (fun v => Fetch_cell v = None)) (records a) →
  ∃ v, Fetch_answer a = fetch_interface_conversion v ∧ Fetch_cell v = None.
Proof.
  intros Hp Hq Hc Hlen Hbad. unfold Fetch_answer. rewrite Hp, Hq, Hc.
  by apply Fetch_loop_panics.
Qed.

Lemma Fetch_panics_on_other_types_witness :
  ∃ v, Fetch_answer with_double = fetch_interface_conversion v ∧ Fetch_cell v = None.
Proof.
  refine (Fetch_panics_on_other_types with_double _ _ _ _ _).
  - reflexivity.
  - reflexivity.
  - reflexivity.
  - repeat constructor.
  - apply Exists_cons_hd. apply Exists_cons_tl. apply Exists_cons_hd. reflexivity.
Defined.

(** [FetchAny], when the database answers without error and every cell is
    [NULL] or [[]byte]: the rows come back under the numbers 0, 1, ... in
    the order delivered; each is a map with exactly the column names as
    keys, holding the cell as a string, the empty string for [NULL]; of
    several columns of one name the last is kept. *)
Theorem FetchAny_rows_by_number_and_column (query : string)
    (ask : string -> list value -> Answer) :
  query_fault (ask query []) = None →
  columns_fault (ask query []) = None →
  Forall (fun row => length row = length (columns (ask query []))) (records (ask query [])) →
  Forall (Forall (fun v => is_Some (FetchAny_cell v))) (records (ask query [])) →
  Z.of_nat (length (records (ask query []))) ≤ maxInt →
  ∃ m, FetchAny query ask = fetched m
     ∧ (∀ z, is_Some (m !! z) ↔ 0 ≤ z < Z.of_nat (length (records (ask query []))))
     ∧ (∀ (i : nat) row,
          records (ask query []) !! i = Some row →
          ∃ rm, m !! Z.of_nat i = Some rm
              ∧ (∀ c, is_Some (rm !! c) ↔ c ∈ columns (ask query []))
              ∧ (∀ (k : nat) c v,
                   columns (ask query []) !! k = Some c → row !! k = Some v →
                   (∀ k' : nat, (k < k')%nat → columns (ask query []) !! k' ≠ Some c) →
                   rm !! c = FetchAny_cell v)).
Proof.
  intros Hq Hc Hlen Hconv Hb. unfold FetchAny. rewrite Hq, Hc.
  by apply Fetch_loop_rows.
Qed.

Lemma FetchAny_rows_by_number_and_column_witness :
  ∃ m, FetchAny "select * from mytable" (fun _ _ => two_rows_as_text) = fetched m
     ∧ (∀ z, is_Some (m !! z) ↔ 0 ≤ z < 2)
     ∧ (∀ (i : nat) row,
          records two_rows_as_text !! i = Some row →
          ∃ rm, m !! Z.of_nat i = Some rm
              ∧ (∀ c, is_Some (rm !! c) ↔ c ∈ columns two_rows_as_text)
              ∧ (∀ (k : nat) c v,
                   columns two_rows_as_text !! k = Some c → row !! k = Some v →
                   (∀ k' : nat, (k < k')%nat → columns two_rows_as_text !! k' ≠ Some c) →
                   rm !! c = FetchAny_cell v)).
Proof.
  refine (FetchAny_rows_by_number_and_column "select * from mytable"
            (fun _ _ => two_rows_as_text) _ _ _ _ _).
  - reflexivity.
  - reflexivity.
  - repeat constructor.
  - repeat constructor; by eexists.
  - unfold maxInt. simpl. lia.
Defined.

(** [FetchAny], when the database answers without error and some cell is
    neither [NULL] nor [[]byte]: the call panics in the type assertion of
    line 393. An [int64], which [Fetch] takes, is such a cell. *)
Theorem FetchAny_panics_on_other_types (query : string)
    (ask : string -> list value -> Answer) :
  query_fault (ask query []) = None →
  columns_fault (ask query []) = None →
  Forall (fun row => length row = length (columns (ask query []))) (records (ask query [])) →
  Exists (Exists (fun v => FetchAny_cell v = None)) (records (ask query [])) →
  ∃ v, FetchAny query ask = fetch_interface_conversion v ∧ FetchAny_cell v = None.
Proof.
  intros Hq Hc Hlen Hbad. unfold FetchAny. rewrite Hq, Hc.
  by apply Fetch_loop_panics.
Qed.

Lemma FetchAny_panics_on_other_types_witness :
  ∃ v, FetchAny "select * from mytable" (fun _ _ => two_rows)
       = fetch_interface_conversion v
     ∧ FetchAny_cell v = None.
Proof.
  refine (FetchAny_panics_on_other_types "select * from mytable" (fun _ _ => two_rows)
            _ _ _ _).
  - reflexivity.
  - reflexivity.
  - repeat constructor.
  - apply Exists_cons_hd. apply Exists_cons_hd. reflexivity.
Defined.

(** ** Rows are never rewritten *)

Lemma resolve_keeps_rows (env : Env) (w : Database) (cur : string) (id : Z) (b : string)
    (id' : Z) (s : string) :
  (∀ rows, rows !! id' = Some s → writes env b rows !! id' = Some s) →
  dbSchemaLog w !! id' = Some s →
  dbSchemaLog (resolve env w cur id b).2 !! id' = Some s.
Proof.
  intros Hkeep Hrow. unfold resolve, QueryRowScan.
  destruct (select_fault env id) as [msg|].
  { by destruct (String.eqb cur b). }
  destruct (dbSchemaLog w !! id) as [tx|] eqn:Hid.
  { by destruct (String.eqb tx b). }
  destruct (String.eqb cur b); [assumption |].
  pose proof (apply_keeps_row env (called (Select id) w) id id' b s) as H.
  destruct (apply env (called (Select id) w) id b) as [r w2]. simpl in *.
  apply H; [congruence | assumption | assumption].
Qed.

Lemma Schema_loop_keeps_rows (env : Env) (rs : list ReadResult) (id : Z) (s : string) :
  (∀ b rows, rows !! id = Some s → writes env b rows !! id = Some s) →
  ∀ (d : DB) (l : Locals),
    dbSchemaLog (db d) !! id = Some s →
    dbSchemaLog (db (Schema_loop env d l rs).1.2) !! id = Some s.
Proof.
  intros Hkeep.
  induction rs as [|r rs IH]; intros d l Hrow; [assumption |].
  simpl. unfold iteration.
  destruct (isPrefix r); [by apply IH |].
  destruct (rerr r) as [[| |msg]|]; try assumption.
  destruct (len _ =? 0)%nat; [by apply IH |].
  pose proof (resolve_keeps_rows env (db d) (currentTx l) (int_incr (schemaChanges d))
                (if (0 <? len (data l))%nat then data l +:+ line r else line r)
                id s (Hkeep _) Hrow) as H.
  destruct (resolve env (db d) (currentTx l) (int_incr (schemaChanges d)) _)
    as [[[err|] cur] w]; simpl in H.
  - assumption.
  - by apply IH.
Qed.

Lemma create_log_rows (env : Env) (w : Database) :
  dbSchemaLog (create_log env w).2 = dbSchemaLog w.
Proof. unfold create_log. by repeat case_match. Qed.

(** The statements [Schema] issues itself, the insert of line 182 and the
    delete of line 195, never touch a row that is already there: a row
    that is in the log when [Schema] is called, and that no statement of
    the source sent to the server at line 193 changes, is in the log with
    the same text when [Schema] returns, whichever calls fail. *)
Theorem Schema_never_rewrites_a_row (env : Env) (d : DB) (schema : bufio.Reader)
    (id : Z) (s : string) :
  (∀ b rows, rows !! id = Some s → writes env b rows !! id = Some s) →
  dbSchemaLog (db d) !! id = Some s →
  dbSchemaLog (db (Schema env d schema).2) !! id = Some s.
Proof.
  intros Hkeep Hrow. unfold Schema, Schema_on.
  pose proof (create_log_rows env (db d)) as Hc.
  destruct (create_log env (db d)) as [[err|] w]; simpl in *.
  - by rewrite Hc.
  - apply Schema_loop_keeps_rows; [assumption |]. simpl. by rewrite Hc.
Qed.


Lemma Schema_never_rewrites_a_row_witness :
  dbSchemaLog
    (db (Schema (healthy ddl) (Connect (mkDatabase {[1 := "CREATE TABLE a"]} []))
           (file (unlines ["CREATE TABLE a"; "CREATE TABLE b"; "CREATE TABLE c"]))).2) !! 1
  = Some "CREATE TABLE a".
Proof.
  refine (Schema_never_rewrites_a_row (healthy ddl)
            (Connect (mkDatabase {[1 := "CREATE TABLE a"]} []))
            (file (unlines ["CREATE TABLE a"; "CREATE TABLE b"; "CREATE TABLE c"]))
            1 "CREATE TABLE a" _ _).
  - intros b rows Hrow. exact Hrow.
  - reflexivity.
Defined.

(** ** A source the log already records *)

Lemma reconcile_skips_recorded (env : Env) (base : Z) (done : list string) :
  ∀ (w : Database) (cur : string) (given : nat) (rest : list string)
    (failure : option error),
    (∀ id, select_fault env id = None) →
    (∀ (i : nat) b, done !! i = Some b →
       dbSchemaLog w !! (base + Z.of_nat given + 1 + Z.of_nat i) = Some b) →
    reconcile env w cur base given (done ++ rest) failure
    = reconcile env
        (mkDatabase (dbSchemaLog w)
           (calls w ++ (Select <$> seqZ (base + Z.of_nat given + 1) (Z.of_nat (length done)))))
        (default cur (last done)) base (given + length done) rest failure.
Proof.
  induction done as [|b done IH]; intros w cur given rest failure Hsel Hrows.
  - simpl. rewrite app_nil_r, Nat.add_0_r. by destruct w.
  - simpl app. simpl reconcile. unfold resolve.
    rewrite (QueryRowScan_found env _ _ _ b);
      [| apply Hsel | rewrite <- (Hrows 0%nat b eq_refl); f_equal; lia].
    rewrite String.eqb_refl.
    rewrite (IH (called (Select (base + Z.of_nat (S given))) w) b (S given) rest failure Hsel).
    + f_equal.
      * unfold called. simpl. f_equal. rewrite <- app_assoc. f_equal.
        rewrite (seqZ_cons _ (Z.of_nat (S (length done)))) by lia.
        simpl. f_equal; [f_equal; lia |]. do 2 f_equal; lia.
      * rewrite last_cons. by destruct (last done).
      * simpl. lia.
    + intros i b' Hi. simpl. rewrite <- (Hrows (S i) b' Hi). f_equal. lia.
Qed.

(** When the log holds every statement of the source under the number the
    run gives it and no lookup fails, the run makes one lookup for each
    statement and nothing else, leaves the rows as they are, and returns
    [nil], or the read error if the source ends with one. *)
Theorem recorded_source_is_replayed (env : Env) (d : DB) (l : Locals)
    (rs : list ReadResult) :
  schemaChanges d + Z.of_nat (length rs) ≤ maxInt →
  (∀ id, select_fault env id = None) →
  (∀ (i : nat) b, (statements (data l) rs).1 !! i = Some b →
     dbSchemaLog (db d) !! (schemaChanges d + 1 + Z.of_nat i) = Some b) →
  outcome (Schema_loop env d l rs)
  = (option_map error_reading_scheme_lines (statements (data l) rs).2,
     mkDatabase (dbSchemaLog (db d))
       (calls (db d)
        ++ (Select <$> seqZ (schemaChanges d + 1)
                         (Z.of_nat (length (statements (data l) rs).1)))),
     schemaChanges d + Z.of_nat (length (statements (data l) rs).1)).
Proof.
  intros Hb Hsel Hrows.
  rewrite (Schema_loop_reconcile env rs d l (schemaChanges d) 0) by (simpl; lia).
  pose proof (reconcile_skips_recorded env (schemaChanges d) (statements (data l) rs).1
                (db d) (currentTx l) 0 [] (statements (data l) rs).2 Hsel) as H.
  rewrite app_nil_r in H. rewrite H.
  - simpl. by replace (schemaChanges d + Z.of_nat 0 + 1) with (schemaChanges d + 1) by lia.
  - intros i b Hi. rewrite <- (Hrows i b Hi). f_equal. simpl. lia.
Qed.


Lemma recorded_source_is_replayed_witness :
  outcome (Schema_loop (healthy ddl)
             (Connect (mkDatabase {[1 := "CREATE TABLE t(id INT)";
                                    2 := "INSERT INTO t VALUES (1)"]} []))
             (mkLocals "" "")
             [ln "CREATE TABLE t(id INT)"; ln ""; ln "INSERT INTO t VALUES (1)"])
  = (None,
     mkDatabase {[1 := "CREATE TABLE t(id INT)"; 2 := "INSERT INTO t VALUES (1)"]}
       [Select 1; Select 2],
     2).
Proof.
  refine (recorded_source_is_replayed (healthy ddl)
            (Connect (mkDatabase {[1 := "CREATE TABLE t(id INT)";
                                   2 := "INSERT INTO t VALUES (1)"]} []))
            (mkLocals "" "")
            [ln "CREATE TABLE t(id INT)"; ln ""; ln "INSERT INTO t VALUES (1)"] _ _ _).
  - unfold maxInt. simpl. lia.
  - reflexivity.
  - intros [|[|i]] b H; simpl in H; [| | discriminate H];
      injection H as <-; reflexivity.
Defined.

(** ** New statements on a server without faults *)

Lemma executed_app (cs cs' : list Call) : executed (cs ++ cs') = executed cs ++ executed cs'.
Proof. apply omap_app. Qed.

Lemma apply_faultless (env : Env) (w : Database) (id : Z) (b : string) :
  faultless env →
  (∀ rows, writes env b rows = rows) →
  dbSchemaLog w !! id = None →
  apply env w id b
  = (None, mkDatabase (<[id := b]> (dbSchemaLog w))
             (calls w ++ [BeginTx; Insert id b; Exec b; Commit])).
Proof.
  intros Hok Hw Hrow. destruct (Hok id) as (_ & Hbegin & Hins & Hexec & Hcommit).
  unfold apply. simpl. rewrite Hbegin, Hins, Hexec, Hcommit, Hw.
  destruct (decide (is_Some (dbSchemaLog w !! id))) as [[x Hx] | _]; [congruence |].
  unfold committed, called. simpl.
  destruct (implicit_commit env b); simpl; by rewrite <- !app_assoc.
Qed.

Lemma reconcile_applies_new (env : Env) (base : Z) (new : list string) :
  faultless env →
  (∀ b, b ∈ new → ∀ rows, writes env b rows = rows) →
  ∀ (w : Database) (cur : string) (given : nat) (failure : option error),
    (∀ id, base + Z.of_nat given < id → dbSchemaLog w !! id = None) →
    (∀ b, b ∈ new → b ≠ cur) →
    ∃ w', reconcile env w cur base given new failure
          = (option_map error_reading_scheme_lines failure, w',
             base + Z.of_nat (given + length new))
        ∧ (∀ (j : nat) b, new !! j = Some b →
             dbSchemaLog w' !! (base + Z.of_nat given + 1 + Z.of_nat j) = Some b)
        ∧ (∀ id, id ≤ base + Z.of_nat given → dbSchemaLog w' !! id = dbSchemaLog w !! id)
        ∧ (∀ id, base + Z.of_nat (given + length new) < id → dbSchemaLog w' !! id = None)
        ∧ executed (calls w') = executed (calls w) ++ new.
Proof.
  intros Hok.
  induction new as [|b new IH]; intros Hwrites w cur given failure Hnone Hne.
  - exists w. simpl. rewrite Nat.add_0_r, app_nil_r. repeat split; done.
  - simpl reconcile. unfold resolve.
    rewrite QueryRowScan_absent; [| apply Hok | apply Hnone; lia].
    destruct (String.eqb_spec cur b) as [-> | _].
    { exfalso. by apply (Hne b); [left |]. }
    rewrite apply_faultless;
      [| assumption | apply Hwrites; by left | simpl; apply Hnone; lia].
    set (id := base + Z.of_nat (S given)).
    destruct (IH (fun b' Hb' => Hwrites b' (list_elem_of_further _ _ _ Hb'))
                 (mkDatabase (<[id := b]> (dbSchemaLog (called (Select id) w)))
                    (calls (called (Select id) w) ++ [BeginTx; Insert id b; Exec b; Commit]))
                cur (S given) failure)
      as (w' & Heq & Hnew & Hold & Hbeyond & Hexec).
    { intros id' Hid'. simpl. rewrite lookup_insert_ne by (unfold id; lia).
      apply Hnone. lia. }
    { intros b' Hb'. apply Hne. by right. }
    exists w'. split.
    { rewrite Heq. do 2 f_equal. simpl. lia. }
    split; [| split; [| split]].
    + intros j b' Hj. destruct j as [|j]; simpl in Hj.
      * injection Hj as <-. rewrite Hold by lia. simpl.
        replace (base + Z.of_nat given + 1 + Z.of_nat 0) with id by (unfold id; lia).
        apply lookup_insert_eq.
      * rewrite <- (Hnew j b' Hj). f_equal. lia.
    + intros id' Hid'. rewrite Hold by lia. simpl.
      apply lookup_insert_ne. unfold id. lia.
    + intros id' Hid'. apply Hbeyond. simpl in Hid'. lia.
    + rewrite Hexec. simpl. unfold called. simpl.
      rewrite !executed_app. simpl. by rewrite app_nil_r, <- app_assoc.
Qed.

(** When no call made for a statement fails: if the log holds the first
    statements of the source ([done]) under their numbers and nothing
    under a larger number, none of the remaining statements ([new]) has
    the text [currentTx] is left with after the last recorded one, and
    none of them writes [dbSchemaLog] itself when the server runs it, then
    the run executes exactly the new statements, in order, records each
    under its number, leaves the older rows alone and returns [nil], or
    the read error if the source ends with one. *)
Theorem new_statements_are_applied (env : Env) (d : DB) (l : Locals)
    (rs : list ReadResult) (done new : list string) (failure : option error) :
  faultless env →
  (∀ b, b ∈ new → ∀ rows, writes env b rows = rows) →
  schemaChanges d + Z.of_nat (length rs) ≤ maxInt →
  statements (data l) rs = (done ++ new, failure) →
  (∀ (i : nat) b, done !! i = Some b →
     dbSchemaLog (db d) !! (schemaChanges d + 1 + Z.of_nat i) = Some b) →
  (∀ id, schemaChanges d + Z.of_nat (length done) < id → dbSchemaLog (db d) !! id = None) →
  (∀ b, b ∈ new → b ≠ default (currentTx l) (last done)) →
  ∃ w', outcome (Schema_loop env d l rs)
        = (option_map error_reading_scheme_lines failure, w',
           schemaChanges d + Z.of_nat (length done + length new))
      ∧ (∀ (j : nat) b, new !! j = Some b →
           dbSchemaLog w' !! (schemaChanges d + Z.of_nat (length done) + 1 + Z.of_nat j)
           = Some b)
      ∧ (∀ id, id ≤ schemaChanges d + Z.of_nat (length done) →
           dbSchemaLog w' !! id = dbSchemaLog (db d) !! id)
      ∧ (∀ id, schemaChanges d + Z.of_nat (length done + length new) < id →
           dbSchemaLog w' !! id = None)
      ∧ executed (calls w') = executed (calls (db d)) ++ new.
Proof.
  intros Hok Hwrites Hb Hst Hrows Hnone Hne.
  rewrite (Schema_loop_reconcile env rs d l (schemaChanges d) 0) by (simpl; lia).
  rewrite Hst. simpl fst. simpl snd.
  rewrite reconcile_skips_recorded; [| intros id; apply Hok |].
  2:{ intros i b Hi. rewrite <- (Hrows i b Hi). f_equal. simpl. lia. }
  destruct (reconcile_applies_new env (schemaChanges d) new Hok Hwrites
              (mkDatabase (dbSchemaLog (db d))
                 (calls (db d)
                  ++ (Select <$> seqZ (schemaChanges d + Z.of_nat 0 + 1)
                                   (Z.of_nat (length done)))))
              (default (currentTx l) (last done)) (0 + length done) failure)
    as (w' & Heq & Hnew & Hold & Hbeyond & Hexec).
  { intros id Hid. simpl. apply Hnone. lia. }
  { assumption. }
  exists w'. split; [rewrite Heq; by replace (0 + length done + length new)%nat with (length done + length new)%nat by lia |].
  split; [| split; [| split]].
  - intros j b Hj. rewrite <- (Hnew j b Hj). f_equal; lia.
  - intros id Hid. rewrite Hold by lia. reflexivity.
  - intros id Hid. apply Hbeyond. lia.
  - rewrite Hexec. simpl. rewrite executed_app. f_equal.
    assert (executed (Select <$> seqZ (schemaChanges d + Z.of_nat 0 + 1)
                        (Z.of_nat (length done))) = []) as ->; [| by rewrite app_nil_r].
    generalize (seqZ (schemaChanges d + Z.of_nat 0 + 1) (Z.of_nat (length done))).
    intros zs. induction zs; [reflexivity | assumption].
Qed.


Lemma new_statements_are_applied_witness :
  ∃ w', outcome (Schema_loop (healthy ddl)
                   (Connect (mkDatabase {[1 := "CREATE TABLE t(id INT)"]} []))
                   (mkLocals "" "")
                   [ln "CREATE TABLE t(id INT)"; ln "INSERT INTO t VALUES (1)";
                    ln "INSERT INTO t VALUES (2)"])
        = (None, w', 3)
      ∧ (∀ (j : nat) b,
           ["INSERT INTO t VALUES (1)"; "INSERT INTO t VALUES (2)"] !! j = Some b →
           dbSchemaLog w' !! (0 + 1 + 1 + Z.of_nat j) = Some b)
      ∧ (∀ id, id ≤ 0 + 1 →
           dbSchemaLog w' !! id
           = ({[1 := "CREATE TABLE t(id INT)"]} : gmap Z string) !! id)
      ∧ (∀ id, 0 + 3 < id → dbSchemaLog w' !! id = None)
      ∧ executed (calls w')
        = ["INSERT INTO t VALUES (1)"; "INSERT INTO t VALUES (2)"].
Proof.
  refine (new_statements_are_applied (healthy ddl)
            (Connect (mkDatabase {[1 := "CREATE TABLE t(id INT)"]} []))
            (mkLocals "" "")
            [ln "CREATE TABLE t(id INT)"; ln "INSERT INTO t VALUES (1)";
             ln "INSERT INTO t VALUES (2)"]
            ["CREATE TABLE t(id INT)"]
            ["INSERT INTO t VALUES (1)"; "INSERT INTO t VALUES (2)"] None _ _ _ _ _ _ _).
  - intros id. repeat split.
  - reflexivity.
  - unfold maxInt. simpl. lia.
  - reflexivity.
  - intros [|i] b H; simpl in H; [| discriminate H]. injection H as <-. reflexivity.
  - intros id Hid. simpl in Hid. simpl. apply lookup_singleton_ne. lia.
  - intros b Hb. simpl.
    apply elem_of_cons in Hb as [-> | Hb]; [discriminate |].
    apply elem_of_cons in Hb as [-> | Hb]; [discriminate |].
    by apply elem_of_nil in Hb.
Defined.

(** ** Statements are logged before they are executed *)

Lemma logged_nil : logged_before_executed [].
Proof. intros pre b post H. by destruct pre. Qed.

Lemma logged_app (m1 m2 : list Call) :
  logged_before_executed m1 → logged_before_executed m2 →
  logged_before_executed (m1 ++ m2).
Proof.
  intros H1 H2 pre b post H.
  apply app_eq_app in H as [mid [[-> Hmid] | [-> Hmid]]].
  - destruct mid as [|c mid].
    + simpl in Hmid. destruct (H2 [] b post) as (pre' & id & Hpre); [by rewrite <- Hmid |].
      by destruct pre'.
    + injection Hmid as <- Hpost. rewrite app_nil_r || idtac.
      apply (H1 pre b mid). reflexivity.
  - destruct (H2 mid b post Hmid) as (pre' & id & ->).
    exists (m1 ++ pre'), id. by rewrite <- app_assoc.
Qed.

Ltac no_exec_here H :=
  repeat match type of H with
         | _ :: _ = ?pre ++ _ :: _ =>
             destruct pre as [|? pre]; simpl in H; [discriminate H |];
             injection H as _ H
         | [] = ?pre ++ _ :: _ => by destruct pre
         end.

Lemma apply_logged (env : Env) (w : Database) (id : Z) (b : string) :
  ∃ more, calls (apply env w id b).2 = calls w ++ more
        ∧ logged_before_executed (Select id :: more).
Proof.
  assert (∀ tl, (∀ pre b' post, tl = pre ++ Exec b' :: post → False) →
            logged_before_executed (Select id :: BeginTx :: Insert id b :: Exec b :: tl))
    as Hshape.
  { intros tl Htl pre b' post H.
    destruct pre as [|? pre]; [discriminate |]. injection H as <- H.
    destruct pre as [|? pre]; [discriminate |]. injection H as <- H.
    destruct pre as [|? pre]; [discriminate |]. injection H as <- H.
    destruct pre as [|? pre].
    - injection H as <- _. by exists [], id.
    - injection H as _ H. by destruct (Htl _ _ _ H). }
  unfold apply.
  destruct (begin_fault env id).
  { exists [BeginTx]. split; [reflexivity |]. intros pre b' post H. no_exec_here H. }
  simpl.
  destruct (if decide (is_Some (dbSchemaLog w !! id)) then Some "Duplicate entry"
            else insert_fault env id).
  { exists [BeginTx; Insert id b; Rollback]. simpl. split; [by rewrite <- !app_assoc |].
    intros pre b' post H. no_exec_here H. }
  destruct (exec_fault env id).
  { exists [BeginTx; Insert id b; Exec b; Delete id; Commit]. split.
    - destruct (commit_fault env id), (implicit_commit env b); simpl; by rewrite <- !app_assoc.
    - apply Hshape. intros pre b' post H. no_exec_here H. }
  destruct (commit_fault env id).
  { exists [BeginTx; Insert id b; Exec b; Commit; Rollback]. split.
    - destruct (implicit_commit env b); simpl; by rewrite <- !app_assoc.
    - apply Hshape. intros pre b' post H. no_exec_here H. }
  exists [BeginTx; Insert id b; Exec b; Commit]. split.
  - destruct (implicit_commit env b); simpl; by rewrite <- !app_assoc.
  - apply Hshape. intros pre b' post H. no_exec_here H.
Qed.

Lemma resolve_logged (env : Env) (w : Database) (cur : string) (id : Z) (b : string) :
  ∃ more, calls (resolve env w cur id b).2 = calls w ++ more
        ∧ logged_before_executed more.
Proof.
  assert (logged_before_executed [Select id]) as Hone.
  { intros pre b' post H. no_exec_here H. }
  unfold resolve, QueryRowScan.
  destruct (select_fault env id).
  { exists [Select id]. by destruct (String.eqb cur b). }
  destruct (dbSchemaLog w !! id) as [tx|].
  { exists [Select id]. by destruct (String.eqb tx b). }
  destruct (String.eqb cur b); [by exists [Select id] |].
  destruct (apply_logged env (called (Select id) w) id b) as (more & Heq & Hlog).
  destruct (apply env (called (Select id) w) id b) as [r w2]. simpl in *.
  exists (Select id :: more). split; [| assumption].
  rewrite Heq. by rewrite <- app_assoc.
Qed.

Lemma Schema_loop_logged (env : Env) (rs : list ReadResult) :
  ∀ (d : DB) (l : Locals),
    ∃ more, calls (db (Schema_loop env d l rs).1.2) = calls (db d) ++ more
          ∧ logged_before_executed more.
Proof.
  induction rs as [|r rs IH]; intros d l.
  { exists []. split; [by rewrite app_nil_r | apply logged_nil]. }
  simpl. unfold iteration.
  destruct (isPrefix r); [apply IH |].
  destruct (rerr r) as [[| |msg]|];
    try (exists []; split; [by rewrite app_nil_r | apply logged_nil]).
  destruct (len _ =? 0)%nat; [apply IH |].
  destruct (resolve_logged env (db d) (currentTx l) (int_incr (schemaChanges d))
              (if (0 <? len (data l))%nat then data l +:+ line r else line r))
    as (more & Heq & Hlog).
  destruct (resolve env (db d) (currentTx l) (int_incr (schemaChanges d)) _)
    as [[[err|] cur] w]; simpl in Heq.
  - by exists more.
  - destruct (IH (mkDB w (int_incr (schemaChanges d)) (schemaFail d))
                (mkLocals cur (if (0 <? len (data l))%nat then "" else data l)))
      as (more' & Heq' & Hlog').
    exists (more ++ more'). split; [| by apply logged_app].
    rewrite Heq'. simpl. by rewrite Heq, <- app_assoc.
Qed.

Lemma create_log_logged (env : Env) (w : Database) :
  ∃ more, calls (create_log env w).2 = calls w ++ more ∧ logged_before_executed more.
Proof.
  unfold create_log.
  destruct (begin0_fault env).
  { exists [BeginTx]. split; [reflexivity |]. intros pre b' post H. no_exec_here H. }
  destruct (create_fault env).
  { exists [BeginTx; CreateTable]. simpl. split; [by rewrite <- !app_assoc |].
    intros pre b' post H. no_exec_here H. }
  exists [BeginTx; CreateTable; Commit]. split.
  - destruct (commit0_fault env); simpl; by rewrite <- !app_assoc.
  - intros pre b' post H. no_exec_here H.
Qed.

(** Whatever the source and the server: each statement a call of [Schema]
    executes comes right after the lookup of a number, [BeginTx] and the
    insert of that very statement under that number. *)
Theorem executed_only_after_its_row (env : Env) (d : DB) (schema : bufio.Reader)
    (pre : list Call) (b : string) (post : list Call) :
  calls (db (Schema env d schema).2) = calls (db d) ++ pre ++ Exec b :: post →
  ∃ pre' id, pre = pre' ++ [Select id; BeginTx; Insert id b].
Proof.
  intros H.
  assert (∃ more, calls (db (Schema env d schema).2) = calls (db d) ++ more
                ∧ logged_before_executed more) as (more & Heq & Hlog).
  { unfold Schema, Schema_on.
    destruct (create_log_logged env (db d)) as (m0 & H0 & Hl0).
    destruct (create_log env (db d)) as [[err|] w]; simpl in H0 |- *.
    - by exists m0.
    - destruct (Schema_loop_logged env (bufio.ReadAll bufio.defaultBufSize schema)
                  (mkDB w (schemaChanges d) (schemaFail d)) (mkLocals "" ""))
        as (m1 & H1 & Hl1).
      exists (m0 ++ m1). split; [| by apply logged_app].
      rewrite H1. simpl. by rewrite H0, <- app_assoc. }
  rewrite Heq in H. apply app_inv_head in H. by apply (Hlog pre b post).
Qed.


Lemma executed_only_after_its_row_witness :
  ∃ pre' id,
    [BeginTx; CreateTable; Commit; Select 1; BeginTx; Insert 1 "CREATE TABLE a"]
    = pre' ++ [Select id; BeginTx; Insert id "CREATE TABLE a"].
Proof.
  refine (executed_only_after_its_row (healthy ddl) (Connect (mkDatabase ∅ []))
            (file (unlines ["CREATE TABLE a"]))
            [BeginTx; CreateTable; Commit; Select 1; BeginTx; Insert 1 "CREATE TABLE a"]
            "CREATE TABLE a" [Commit] _).
  reflexivity.
Defined.

(** ** A failed insert *)

(** When the insert of the row of a new statement fails, the transaction
    is rolled back, the statement is not executed, the rows are as before,
    the error names the row and the reads after this one stay unread. *)
Theorem failed_insert_executes_nothing (env : Env) (d : DB) (l : Locals)
    (r : ReadResult) (rs : list ReadResult) (msg : string) :
  isPrefix r = false →
  rerr r = None →
  len (data l +:+ line r) ≠ 0%nat →
  currentTx l ≠ data l +:+ line r →
  dbSchemaLog (db d) !! int_incr (schemaChanges d) = None →
  select_fault env (int_incr (schemaChanges d)) = None →
  begin_fault env (int_incr (schemaChanges d)) = None →
  insert_fault env (int_incr (schemaChanges d)) = Some msg →
  Schema_loop env d l (r :: rs)
  = (Some (unable_to_insert_dbSchemaLog_row (int_incr (schemaChanges d)) (errors_New msg)),
     mkDB (mkDatabase (dbSchemaLog (db d))
             (calls (db d)
              ++ [Select (int_incr (schemaChanges d)); BeginTx;
                  Insert (int_incr (schemaChanges d)) (data l +:+ line r); Rollback]))
          (int_incr (schemaChanges d)) (schemaFail d),
     rs).
Proof.
  intros Hp He Hlen Hne Hrow Hs Hb Hi.
  simpl Schema_loop. unfold iteration.
  rewrite Hp, He, assembled.
  destruct (Nat.eqb_spec (len (data l +:+ line r)) 0); [contradiction |].
  unfold resolve. rewrite QueryRowScan_absent by assumption.
  destruct (String.eqb_spec (currentTx l) (data l +:+ line r)); [contradiction |].
  unfold apply. rewrite Hb. simpl.
  destruct (decide (is_Some (dbSchemaLog (db d) !! int_incr (schemaChanges d))))
    as [[x Hx] | _]; [congruence |].
  rewrite Hi. unfold called. simpl. by rewrite <- !app_assoc.
Qed.

Lemma failed_insert_executes_nothing_witness :
  Schema_loop (insert_fails_at 1 "Lock wait timeout exceeded")
    (Connect (mkDatabase ∅ [])) (mkLocals "" "")
    [ln "CREATE TABLE a"; ln "CREATE TABLE b"]
  = (Some (unable_to_insert_dbSchemaLog_row 1 (errors_New "Lock wait timeout exceeded")),
     mkDB (mkDatabase ∅ [Select 1; BeginTx; Insert 1 "CREATE TABLE a"; Rollback]) 1 false,
     [ln "CREATE TABLE b"]).
Proof.
  refine (failed_insert_executes_nothing (insert_fails_at 1 "Lock wait timeout exceeded")
            (Connect (mkDatabase ∅ [])) (mkLocals "" "")
            (ln "CREATE TABLE a") [ln "CREATE TABLE b"] "Lock wait timeout exceeded"
            _ _ _ _ _ _ _ _).
  - reflexivity.
  - reflexivity.
  - simpl. lia.
  - discriminate.
  - reflexivity.
  - reflexivity.
  - reflexivity.
  - reflexivity.
Defined.

(** ** Instances of the lemmas on partial reads, lookups and compensation *)

Lemma split_line_is_one_statement_witness :
  Schema_loop (healthy ddl) (Connect (mkDatabase ∅ [])) (mkLocals "" "")
    ([part "CREATE "; part "TABLE "] ++ ln "a" :: [ln "CREATE TABLE b"])
  = Schema_loop (healthy ddl) (Connect (mkDatabase ∅ [])) (mkLocals "" "")
      (ln "CREATE TABLE a" :: [ln "CREATE TABLE b"]).
Proof.
  refine (split_line_is_one_statement (healthy ddl) [part "CREATE "; part "TABLE "]
            (Connect (mkDatabase ∅ [])) (mkLocals "" "") "a" [ln "CREATE TABLE b"] _).
  repeat constructor.
Defined.

Lemma pending_fragments_dropped_witness :
  Schema_loop (healthy ddl) (Connect (mkDatabase ∅ [])) (mkLocals "" "")
    ([part "CREATE "; part "TABLE a"] ++ mkRead "" false (Some io_EOF) :: [])
  = (None, Connect (mkDatabase ∅ []), []).
Proof.
  refine (pending_fragments_dropped (healthy ddl) [part "CREATE "; part "TABLE a"]
            (Connect (mkDatabase ∅ [])) (mkLocals "" "") [] _).
  repeat constructor.
Defined.

Lemma failed_statement_is_compensated_witness :
  Schema_loop (statement_fails_at 1 "Table 'a' already exists")
    (Connect (mkDatabase ∅ [])) (mkLocals "" "")
    [ln "CREATE TABLE a"; ln "CREATE TABLE b"]
  = (Some (unable_to_make_schema_change 1 "CREATE TABLE a"
             (errors_New "Table 'a' already exists")),
     mkDB (mkDatabase ∅
             [Select 1; BeginTx; Insert 1 "CREATE TABLE a"; Exec "CREATE TABLE a";
              Delete 1; Commit]) 1 false,
     [ln "CREATE TABLE b"]).
Proof.
  refine (failed_statement_is_compensated (statement_fails_at 1 "Table 'a' already exists")
            (Connect (mkDatabase ∅ [])) (mkLocals "" "")
            (ln "CREATE TABLE a") [ln "CREATE TABLE b"] "Table 'a' already exists"
            _ _ _ _ _ _ _ _ _ _ _).
  - reflexivity.
  - reflexivity.
  - simpl. lia.
  - discriminate.
  - reflexivity.
  - reflexivity.
  - reflexivity.
  - reflexivity.
  - reflexivity.
  - reflexivity.
  - reflexivity.
Defined.

Lemma failed_lookup_halts_witness :
  Schema_loop (lookup_fails_at 1 "invalid connection")
    (Connect (mkDatabase {[1 := "CREATE TABLE a"]} [])) (mkLocals "" "")
    [ln "CREATE TABLE a"; ln "CREATE TABLE b"]
  = (Some (dbSchemaLog_does_not_match 1 "" "CREATE TABLE a"),
     mkDB (mkDatabase {[1 := "CREATE TABLE a"]} [Select 1]) 1 false,
     [ln "CREATE TABLE b"]).
Proof.
  refine (failed_lookup_halts (lookup_fails_at 1 "invalid connection")
            (Connect (mkDatabase {[1 := "CREATE TABLE a"]} [])) (mkLocals "" "")
            (ln "CREATE TABLE a") [ln "CREATE TABLE b"] "invalid connection" _ _ _ _ _).
  - reflexivity.
  - reflexivity.
  - simpl. lia.
  - reflexivity.
  - discriminate.
Defined.

Lemma mismatch_leaves_gap_free_log_unmodified_witness :
  dbSchemaLog (mkDatabase {[1 := "CREATE TABLE a"; 2 := "CREATE TABLE b"]}
                 [Select 1; Select 2])
  = ({[1 := "CREATE TABLE a"; 2 := "CREATE TABLE b"]} : gmap Z string)
  ∧ ({[1 := "CREATE TABLE a"; 2 := "CREATE TABLE b"]} : gmap Z string) !! 2
    = Some "CREATE TABLE b"
  ∧ "CREATE TABLE b" ≠ "CREATE TABLE x".
Proof.
  refine (mismatch_leaves_gap_free_log_unmodified (healthy ddl)
            (Connect (mkDatabase {[1 := "CREATE TABLE a"; 2 := "CREATE TABLE b"]} []))
            (mkLocals "" "")
            [ln "CREATE TABLE a"; ln "CREATE TABLE x"; ln "CREATE TABLE c"] 2 2
            "CREATE TABLE b" "CREATE TABLE x"
            (mkDB (mkDatabase {[1 := "CREATE TABLE a"; 2 := "CREATE TABLE b"]}
                     [Select 1; Select 2]) 2 false)
            [ln "CREATE TABLE c"] _ _ _ _ _ _).
  - simpl. lia.
  - unfold maxInt. simpl. lia.
  - intros id.
    change (is_Some (({[1 := "CREATE TABLE a"; 2 := "CREATE TABLE b"]} : gmap Z string) !! id)
            ↔ 1 ≤ id ≤ 2).
    destruct (decide (id = 1)) as [-> | Hne1].
    + rewrite lookup_insert_eq. split; [lia | by eexists].
    + rewrite lookup_insert_ne by done.
      destruct (decide (id = 2)) as [-> | Hne2].
      * rewrite lookup_singleton_eq. split; [lia | by eexists].
      * rewrite lookup_singleton_ne by done. split; [by intros [? ?] | lia].
  - reflexivity.
  - reflexivity.
  - reflexivity.
Defined.

Lemma lookups_are_consecutive_witness :
  ∃ k : nat,
    (k ≤ 3)%nat
    ∧ lookups (calls (db (Schema_loop (statement_fails_at 2 "syntax error")
                            (Connect (mkDatabase ∅ [])) (mkLocals "" "")
                            [ln "CREATE TABLE a"; ln ""; ln "CREATE TABLE b";
                             ln "CREATE TABLE c"]).1.2))
      = [] ++ seqZ (0 + 1) (Z.of_nat k)
    ∧ schemaChanges (Schema_loop (statement_fails_at 2 "syntax error")
                       (Connect (mkDatabase ∅ [])) (mkLocals "" "")
                       [ln "CREATE TABLE a"; ln ""; ln "CREATE TABLE b";
                        ln "CREATE TABLE c"]).1.2
      = 0 + Z.of_nat k
    ∧ (1 ≤ k)%nat
    ∧ ∀ row,
        row_of (unable_to_make_schema_change 2 "CREATE TABLE b" (errors_New "syntax error"))
        = Some row →
        row = 0 + Z.of_nat k.
Proof.
  refine (lookups_are_consecutive (statement_fails_at 2 "syntax error")
            (Connect (mkDatabase ∅ [])) (mkLocals "" "")
            [ln "CREATE TABLE a"; ln ""; ln "CREATE TABLE b"; ln "CREATE TABLE c"] _).
  unfold maxInt. simpl. lia.
Defined.

(** ** A source that writes the log *)

(** A statement of the source is sent to the server as it is, so it can
    write [dbSchemaLog] like any other table. First run, empty log: the
    second statement rewrites row 1; both statements are recorded, the run
    returns [nil], and row 1 no longer has the text of the first
    statement. Second run, new handle, same source: the lookup of row 1
    finds the rewritten text and the run stops with the mismatch error
    before any statement is executed. *)
Theorem source_statement_rewrites_the_log :
  let upd := "UPDATE dbSchemaLog SET tx = 'x' WHERE id = 1" in
  let env := rewrites_log upd 1 "x" in
  let src := file (unlines ["CREATE TABLE a (n INT)"; upd]) in
  let first := Schema env (Connect (mkDatabase ∅ [])) src in
  let second := Schema env (Connect (mkDatabase (dbSchemaLog (db first.2)) [])) src in
  first.1 = None
  ∧ dbSchemaLog (db first.2) = {[1 := "x"; 2 := upd]}
  ∧ executed (calls (db first.2)) = ["CREATE TABLE a (n INT)"; upd]
  ∧ second.1 = Some (dbSchemaLog_does_not_match 1 "x" "CREATE TABLE a (n INT)")
  ∧ executed (calls (db second.2)) = []
  ∧ dbSchemaLog (db second.2) = dbSchemaLog (db first.2).
Proof. vm_compute. repeat split. Qed.

(** ** [Delete] *)

(** The usage example of the package comment: only the ["id"] entry is
    read; a map without one sends [nil] as the id. *)
Example Delete_usage :
  mysql.Delete {[ "id" := int_value 13; "field1" := string_value "x" ]} "mytable"
  = db_Exec "DELETE FROM mytable WHERE id=?" [int_value 13]
  ∧ mysql.Delete {[ "field1" := string_value "x" ]} "mytable"
    = db_Exec "DELETE FROM mytable WHERE id=?" [nil_value].
Proof. vm_compute. repeat split. Qed.
